(** * SplittingByHashTransform / ResizeByHashTransform

    A shallow embedding of [src/Processors/Transforms/SplittingByHashTransform.cpp]:
    the partition step of the splitting transform (hash the key columns, fill
    the selector, split the chunk) and the two-phase [prepare]/[work] state
    machine of the resizing transform, with the properties that the
    specification states about them. *)

From stdpp Require Import base numbers list sorting.

(** ** Machine integers

    [size_t] and [UInt64] values are integers below [2^64]; arithmetic on them
    wraps around.  [UInt32] values are integers below [2^32]. *)

Definition UInt32_max : Z := 2 ^ 32 - 1.
Definition is_UInt32 (x : Z) : Prop := (0 ≤ x < 2 ^ 32)%Z.
Definition wrap64 (x : Z) : Z := (x mod 2 ^ 64)%Z.

(** ** Exceptions

    Every [throw] of the file carries [ErrorCodes::LOGICAL_ERROR]. *)

Inductive ErrorCode : Set := LOGICAL_ERROR.

Inductive Result (A : Type) : Type :=
  | Ok (a : A)
  | Throw (code : ErrorCode).
Arguments Ok {A} a.
Arguments Throw {A} code.

#[global] Instance Result_ret : MRet Result := λ A a, Ok a.
#[global] Instance Result_bind : MBind Result := λ A B k r,
  match r with
  | Ok a => k a
  | Throw c => Throw c
  end.

(** ** fillSelector

    [WeakHash32] owns one [UInt32] per row; [IColumn::Selector] is an array of
    [size_t]. *)

Abbreviation WeakHash32 := (list Z) (only parsing).
Abbreviation Selector := (list Z) (only parsing).

(** One turn of the loop body: the three assignments to [selector[row]]. *)
Definition fillSelector_row (hash_data : list Z) (num_outputs : Z)
    (selector : Selector) (row : nat) : Selector :=
  let s1 := <[row := hash_data !!! row]> selector in
  let s2 := <[row := wrap64 (s1 !!! row * num_outputs)]> s1 in
  <[row := Z.shiftr (s2 !!! row) 32]> s2.

Definition fillSelector (hash : WeakHash32) (num_outputs : Z)
    (selector : Selector) : Selector :=
  let hash_data := hash in
  let num_rows := length hash_data in
  foldl (fillSelector_row hash_data num_outputs)
        (resize num_rows 0%Z selector) (seq 0 num_rows).

(** The value the three assignments leave in one entry. *)
Definition bucket_of (h num_outputs : Z) : Z :=
  Z.shiftr (wrap64 (h * num_outputs)) 32.

(** ** Chunks

    [ChunkInfoWithChunks] is the only [ChunkInfo] the file declares; any other
    dynamic type of attachment is [OtherChunkInfo].  A [ChunkInfoPtr] is
    [None] when it is null. *)

Inductive ChunkInfo (C : Type) : Type :=
  | ChunkInfoWithChunks (chunks : list C)
  | OtherChunkInfo.
Arguments ChunkInfoWithChunks {C} chunks.
Arguments OtherChunkInfo {C}.

(** [typeid_cast<const ChunkInfoWithChunks *>]: null for a null pointer and
    for another dynamic type. *)
Definition typeid_cast_ChunkInfoWithChunks {C : Type}
    (info : option (ChunkInfo C)) : option (list C) :=
  match info with
  | Some (ChunkInfoWithChunks chunks) => Some chunks
  | Some OtherChunkInfo | None => None
  end.

(** [Block]: only the number of columns of the header is used. *)
Record Block : Set := { columns : nat }.

Fixpoint foldlM {A B : Type} (f : A → B → Result A) (a : A) (l : list B)
    : Result A :=
  match l with
  | [] => Ok a
  | b :: l => a' ← f a b; foldlM f a' l
  end.

Section Partition.
Context {Field : Type}.

Local Abbreviation Column := (list Field).

(** Modelled from the spec: the batch ([Chunk], declared outside the
    sources) is an ordered sequence of columns plus a row count, with at
    most one attachment.  The batch invariant (all columns as long as the
    row count) is kept by [setColumns] and [addColumn], which refuse a
    column of another length. *)
#[warnings="-register-all"]
Inductive Chunk : Type := mkChunk {
  getColumns : list Column;
  getNumRows : nat;
  getChunkInfo : option (ChunkInfo Chunk)
}.

Definition Chunk_empty : Chunk := mkChunk [] 0 None.
#[global] Instance Chunk_inhabited : Inhabited Chunk := populate Chunk_empty.

Definition hasRows (chunk : Chunk) : bool := bool_decide (0 < getNumRows chunk).

Definition detachColumns (chunk : Chunk) : list Column * Chunk :=
  (getColumns chunk, mkChunk [] 0 (getChunkInfo chunk)).

Definition setColumns (chunk : Chunk) (cols : list Column) (num_rows : nat)
    : Result Chunk :=
  if decide (Forall (λ col, length col = num_rows) cols)
  then Ok (mkChunk cols num_rows (getChunkInfo chunk))
  else Throw LOGICAL_ERROR.

Definition addColumn (chunk : Chunk) (column : Column) : Result Chunk :=
  if decide (length column = getNumRows chunk)
  then Ok (mkChunk (getColumns chunk ++ [column]) (getNumRows chunk)
                   (getChunkInfo chunk))
  else Throw LOGICAL_ERROR.

Definition setChunkInfo (chunk : Chunk) (info : option (ChunkInfo Chunk))
    : Chunk :=
  mkChunk (getColumns chunk) (getNumRows chunk) info.

(** The collaborators of the partition step, which [IColumn] and
    [WeakHash32] declare outside the sources:
    [scatter column num_columns selector] is [column->scatter(...)],
    [updateWeakHash32 column hash] is the buffer after
    [column->updateWeakHash32(hash)], and [hash_init] is the value
    [WeakHash32::reset] fills the buffer with. *)
Variable scatter : Column → Z → Selector → list Column.
Variable updateWeakHash32 : Column → WeakHash32 → WeakHash32.
Variable hash_init : Z.

(** *** calculateWeakHash32 *)

Definition WeakHash32_reset (num_rows : nat) : WeakHash32 :=
  replicate num_rows hash_init.

(** [columns[column_number]] is read without a check: the constructor has
    refused every [column_number] that is not below [header.columns()]. *)
Definition calculateWeakHash32 (chunk : Chunk) (key_columns : list nat)
    : WeakHash32 :=
  let num_rows := getNumRows chunk in
  let columns := getColumns chunk in
  foldl (λ hash column_number, updateWeakHash32 (columns !!! column_number) hash)
        (WeakHash32_reset num_rows) key_columns.

(** *** splitChunk *)

(** The body of the loop of the first column, for output [i]
    ([reserve] changes no value). *)
Definition splitChunk_first (scatter_result : list Column)
    (result_chunks : list Chunk) (i : nat) : Result (list Chunk) :=
  let num_rows := length (scatter_result !!! i) in
  let result_chunk := result_chunks !!! i in
  let '(res_columns, result_chunk) := detachColumns result_chunk in
  let res_columns : list Column := [] in
  let res_columns := res_columns ++ [scatter_result !!! i] in
  result_chunk ← setColumns result_chunk res_columns num_rows;
  Ok (<[i := result_chunk]> result_chunks).

(** The body of the loop of every later column, for output [i]. *)
Definition splitChunk_next (scatter_result : list Column)
    (result_chunks : list Chunk) (i : nat) : Result (list Chunk) :=
  result_chunk ← addColumn (result_chunks !!! i) (scatter_result !!! i);
  Ok (<[i := result_chunk]> result_chunks).

Definition splitChunk_column (selector : Selector) (num_outputs : Z)
    (acc : bool * list Chunk) (column : Column) : Result (bool * list Chunk) :=
  let '(first, result_chunks) := acc in
  let scatter_result := scatter column num_outputs selector in
  if first
  then result_chunks ← foldlM (splitChunk_first scatter_result) result_chunks
                              (seq 0 (Z.to_nat num_outputs));
       Ok (false, result_chunks)
  else result_chunks ← foldlM (splitChunk_next scatter_result) result_chunks
                              (seq 0 (Z.to_nat num_outputs));
       Ok (false, result_chunks).

Definition splitChunk (chunk : Chunk) (selector : Selector) (num_outputs : Z)
    (result_chunks : list Chunk) : Result (list Chunk) :=
  let columns := getColumns chunk in
  let result_chunks := resize (Z.to_nat num_outputs) Chunk_empty result_chunks in
  acc ← foldlM (splitChunk_column selector num_outputs) (true, result_chunks) columns;
  Ok acc.2.

(** *** The splitting transform *)

Record SplittingByHashTransform : Type := {
  num_outputs : Z;
  key_columns : list nat;
  hash : WeakHash32;
  selector : Selector
}.

Fixpoint check_key_columns (header : Block) (key_columns : list nat)
    : Result unit :=
  match key_columns with
  | [] => Ok ()
  | column :: rest =>
      if decide (columns header ≤ column)
      then Throw LOGICAL_ERROR
      else check_key_columns header rest
  end.

(** The constructor: the stage, or the exception that leaves none. *)
Definition SplittingByHashTransform_new (header : Block) (num_outputs_ : Z)
    (key_columns_ : list nat) : Result SplittingByHashTransform :=
  let this := {| num_outputs := num_outputs_; key_columns := key_columns_;
                 hash := []; selector := [] |} in
  if decide (num_outputs this ≤ 1)%Z then Throw LOGICAL_ERROR
  else if decide (key_columns this = []) then Throw LOGICAL_ERROR
  else _ ← check_key_columns header (key_columns this); Ok this.

(** [transform]: the stage with its refilled [hash] and [selector], and
    the output chunk, whose attachment owns the sub-batches. *)
Definition transform (this : SplittingByHashTransform)
    (input_chunk output_chunk : Chunk)
    : Result (SplittingByHashTransform * Chunk) :=
  let output_chunk :=
    match getChunkInfo output_chunk with
    | None => setChunkInfo output_chunk (Some (ChunkInfoWithChunks []))
    | Some _ => output_chunk
    end in
  match typeid_cast_ChunkInfoWithChunks (getChunkInfo output_chunk) with
  | None => Throw LOGICAL_ERROR
  | Some chunks =>
      let hash' := calculateWeakHash32 input_chunk (key_columns this) in
      let selector' := fillSelector hash' (num_outputs this) (selector this) in
      chunks' ← splitChunk input_chunk selector' (num_outputs this) chunks;
      Ok ({| num_outputs := num_outputs this; key_columns := key_columns this;
             hash := hash'; selector := selector' |},
          setChunkInfo output_chunk (Some (ChunkInfoWithChunks chunks')))
  end.

End Partition.

Arguments Chunk Field : clear implicits.

(** ** The resizing transform *)

Inductive Status : Set := NeedData | PortFull | Finished | Ready.

(** One use of [was_output_processed[...]]: the index, read or written. *)
Inductive TableAccess : Set :=
  | TableRead (index : nat)
  | TableWrite (index : nat).

Definition TableAccess_index (a : TableAccess) : nat :=
  match a with TableRead index | TableWrite index => index end.

(** [was_output_processed[index]] as an rvalue.  [operator[]] is unchecked
    and C++ gives an access outside the table no meaning; the model lets the
    call go on: an index outside the table reads the memory that follows its
    storage, and [past_end] is what that memory holds when the call starts. *)
Definition table_read (table : list bool) (index : nat) (past_end : bool) : bool :=
  default past_end (table !! index).

(** [was_output_processed[index] = true]: the entries of the table after the
    store.  A store through an index outside the table changes none of them;
    it goes to the memory that follows the table, see [past_end_write]. *)
Definition table_write (table : list bool) (index : nat) : list bool :=
  <[index := true]> table.

(** [was_output_processed[index] = true]: the memory that follows the table
    after the store.  A store through an index outside the table sets it, so
    that a later read through that index finds [true]. *)
Definition past_end_write (table : list bool) (index : nat) (past_end : bool)
    : bool :=
  if decide (index < length table) then past_end else true.

(** The memory that follows the table once the stores among [accesses] have
    been made, oldest first. *)
Definition past_end_after (table : list bool) (accesses : list TableAccess)
    (past_end : bool) : bool :=
  foldl (λ slot a, match a with
                   | TableWrite index => past_end_write table index slot
                   | TableRead _ => slot
                   end) past_end accesses.

Section FanOut.
Context {Field : Type}.

Local Abbreviation Chunk := (Chunk Field).

(** Modelled from the spec: the port capability (query finished and
    readiness, push, pull, mark finished or needed, close), which [Port.h]
    declares outside the sources.  An output port can take a push when its
    consumer has asked for data and the port holds none; [out_pushed] is
    everything pushed to it so far, oldest first. *)
Record OutputPort : Type := {
  out_finished : bool;
  out_can_push : bool;
  out_pushed : list Chunk
}.

Record InputPort : Type := {
  in_finished : bool;
  in_closed : bool;
  in_needed : bool;
  in_data : option Chunk
}.

Definition OutputPort_new : OutputPort :=
  {| out_finished := false; out_can_push := false; out_pushed := [] |}.
Definition InputPort_new : InputPort :=
  {| in_finished := false; in_closed := false; in_needed := false; in_data := None |}.

Definition out_isFinished (output : OutputPort) : bool := out_finished output.
Definition canPush (output : OutputPort) : bool := out_can_push output.
Definition finish (output : OutputPort) : OutputPort :=
  {| out_finished := true; out_can_push := false; out_pushed := out_pushed output |}.
Definition pushRef (output : OutputPort) (chunk : Chunk) : OutputPort :=
  {| out_finished := out_finished output; out_can_push := false;
     out_pushed := out_pushed output ++ [chunk] |}.

Definition in_isFinished (input : InputPort) : bool := in_finished input.
Definition close (input : InputPort) : InputPort :=
  {| in_finished := in_finished input; in_closed := true;
     in_needed := in_needed input; in_data := in_data input |}.
Definition setNeeded (input : InputPort) : InputPort :=
  {| in_finished := in_finished input; in_closed := in_closed input;
     in_needed := true; in_data := in_data input |}.
Definition hasData (input : InputPort) : bool := bool_decide (is_Some (in_data input)).
(** [input.pull(input_chunk)]: the chunk that was waiting and the emptied port. *)
Definition pull (input : InputPort) : Chunk * InputPort :=
  (default Chunk_empty (in_data input),
   {| in_finished := in_finished input; in_closed := in_closed input;
      in_needed := in_needed input; in_data := None |}).

(** What the slot of [output_chunks] holds once [output.pushRef(chunk)] has
    returned: [pushRef] takes the chunk by reference, and [Port.h] is not
    among the sources. *)
Variable pushRef_leaves : Chunk → Chunk.

Record ResizeByHashTransform : Type := {
  input : InputPort;
  outputs : list OutputPort;
  is_generating_phase : bool;
  input_chunk : Chunk;
  output_chunks : list Chunk;
  was_output_processed : list bool
}.

(** The constructor: one input port, [num_outputs] output ports, then the
    check. *)
Definition ResizeByHashTransform_new (header : Block) (num_outputs : Z)
    : Result ResizeByHashTransform :=
  let this := {| input := InputPort_new;
                 outputs := replicate (Z.to_nat num_outputs) OutputPort_new;
                 is_generating_phase := false;
                 input_chunk := Chunk_empty;
                 output_chunks := [];
                 was_output_processed := [] |} in
  if decide (num_outputs ≤ 1)%Z then Throw LOGICAL_ERROR else Ok this.

(** *** prepareConsume *)

(** The loop over the outputs: [None] when it returns [PortFull], otherwise
    the final [all_finished]. *)
Fixpoint prepareConsume_outputs (outputs : list OutputPort) (all_finished : bool)
    : option bool :=
  match outputs with
  | [] => Some all_finished
  | output :: rest =>
      if out_isFinished output then prepareConsume_outputs rest all_finished
      else if negb (canPush output) then None
      else prepareConsume_outputs rest false
  end.

Definition prepareConsume (this : ResizeByHashTransform)
    : Status * ResizeByHashTransform :=
  match prepareConsume_outputs (outputs this) true with
  | None => (PortFull, this)
  | Some true =>
      (Finished,
       {| input := close (input this); outputs := outputs this;
          is_generating_phase := is_generating_phase this;
          input_chunk := input_chunk this; output_chunks := output_chunks this;
          was_output_processed := was_output_processed this |})
  | Some false =>
      if in_isFinished (input this)
      then (Finished,
            {| input := input this; outputs := finish <$> outputs this;
               is_generating_phase := is_generating_phase this;
               input_chunk := input_chunk this; output_chunks := output_chunks this;
               was_output_processed := was_output_processed this |})
      else
        let input' := setNeeded (input this) in
        if negb (hasData input')
        then (NeedData,
              {| input := input'; outputs := outputs this;
                 is_generating_phase := is_generating_phase this;
                 input_chunk := input_chunk this; output_chunks := output_chunks this;
                 was_output_processed := was_output_processed this |})
        else
          let '(pulled, input'') := pull input' in
          (Ready,
           {| input := input''; outputs := outputs this;
              is_generating_phase := true;
              input_chunk := pulled; output_chunks := output_chunks this;
              was_output_processed := was_output_processed this |})
  end.

(** *** prepareGenerate *)

(** The variables of the loop: the two flags, the counter, the members the
    loop changes, and the uses of the table so far (oldest first). *)
Record GenerateLoop : Type := {
  has_full_ports : bool;
  all_outputs_processed : bool;
  chunk_number : nat;
  loop_output_chunks : list Chunk;
  loop_was_output_processed : list bool;
  table_accesses : list TableAccess
}.

(** One turn of the loop for [output]: the port and the loop variables after
    it.  As in the source, [chunk] is taken at [chunk_number] before the
    increment, and the table is indexed with [chunk_number] after it. *)
Definition prepareGenerate_body (past_end : bool) (output : OutputPort)
    (l : GenerateLoop) : OutputPort * GenerateLoop :=
  let slot := chunk_number l in
  let chunk := loop_output_chunks l !!! slot in
  let chunk_number' := S (chunk_number l) in
  let accesses := table_accesses l ++ [TableRead chunk_number'] in
  let skip :=
    (output,
     {| has_full_ports := has_full_ports l;
        all_outputs_processed := all_outputs_processed l;
        chunk_number := chunk_number';
        loop_output_chunks := loop_output_chunks l;
        loop_was_output_processed := loop_was_output_processed l;
        table_accesses := accesses |}) in
  if table_read (loop_was_output_processed l) chunk_number' past_end then skip
  else if negb (hasRows chunk) then skip
  else if out_isFinished output then skip
  else if negb (canPush output)
  then (output,
        {| has_full_ports := true;
           all_outputs_processed := false;
           chunk_number := chunk_number';
           loop_output_chunks := loop_output_chunks l;
           loop_was_output_processed := loop_was_output_processed l;
           table_accesses := accesses |})
  else (pushRef output chunk,
        {| has_full_ports := true;
           all_outputs_processed := all_outputs_processed l;
           chunk_number := chunk_number';
           loop_output_chunks := <[slot := pushRef_leaves chunk]> (loop_output_chunks l);
           loop_was_output_processed :=
             table_write (loop_was_output_processed l) chunk_number';
           table_accesses := accesses ++ [TableWrite chunk_number'] |}).

Fixpoint prepareGenerate_loop (past_end : bool) (outputs : list OutputPort)
    (l : GenerateLoop) : list OutputPort * GenerateLoop :=
  match outputs with
  | [] => ([], l)
  | output :: rest =>
      let '(output', l') := prepareGenerate_body past_end output l in
      let '(rest', l'') := prepareGenerate_loop past_end rest l' in
      (output' :: rest', l'')
  end.

Definition GenerateLoop_start (this : ResizeByHashTransform) : GenerateLoop :=
  {| has_full_ports := false;
     all_outputs_processed := true;
     chunk_number := 0;
     loop_output_chunks := output_chunks this;
     loop_was_output_processed := was_output_processed this;
     table_accesses := [] |}.

(** The members once the loop is over and [is_generating_phase] is
    updated. *)
Definition prepareGenerate_after (this : ResizeByHashTransform)
    (outputs' : list OutputPort) (l : GenerateLoop) : ResizeByHashTransform :=
  {| input := input this; outputs := outputs';
     is_generating_phase :=
       if all_outputs_processed l then false else is_generating_phase this;
     input_chunk := input_chunk this;
     output_chunks := loop_output_chunks l;
     was_output_processed := loop_was_output_processed l |}.

Definition prepareGenerate (past_end : bool) (this : ResizeByHashTransform)
    : Status * ResizeByHashTransform :=
  let '(outputs', l) :=
    prepareGenerate_loop past_end (outputs this) (GenerateLoop_start this) in
  let this' := prepareGenerate_after this outputs' l in
  if has_full_ports l then (PortFull, this') else prepareConsume this'.

(** One call of [prepare]; [past_end] is what the memory after the table
    holds when the call starts.  No turn of the loop reads an index that an
    earlier turn of the same call has stored through, so the call is the same
    whether the stores reach that memory at once or when the call is over;
    [prepare_in_memory] below carries it from one call to the next. *)
Definition prepare (past_end : bool) (this : ResizeByHashTransform)
    : Status * ResizeByHashTransform :=
  if is_generating_phase this then prepareGenerate past_end this
  else prepareConsume this.

(** The uses of [was_output_processed[...]] that one [prepareGenerate]
    makes. *)
Definition prepareGenerate_accesses (past_end : bool)
    (this : ResizeByHashTransform) : list TableAccess :=
  table_accesses
    (prepareGenerate_loop past_end (outputs this) (GenerateLoop_start this)).2.

(** *** work

    The members after [work], and how it ended; the attachment is shared, so
    the swap leaves the former working set in it. *)
Definition work (this : ResizeByHashTransform)
    : ResizeByHashTransform * Result () :=
  match typeid_cast_ChunkInfoWithChunks (getChunkInfo (input_chunk this)) with
  | None => (this, Throw LOGICAL_ERROR)
  | Some chunks =>
      let swapped :=
        {| input := input this; outputs := outputs this;
           is_generating_phase := is_generating_phase this;
           input_chunk :=
             setChunkInfo (input_chunk this)
                          (Some (ChunkInfoWithChunks (output_chunks this)));
           output_chunks := chunks;
           was_output_processed := was_output_processed this |} in
      if decide (length (output_chunks swapped) ≠ length (outputs swapped))
      then (swapped, Throw LOGICAL_ERROR)
      else ({| input := input swapped; outputs := outputs swapped;
               is_generating_phase := is_generating_phase swapped;
               input_chunk := input_chunk swapped;
               output_chunks := output_chunks swapped;
               was_output_processed :=
                 replicate (length (output_chunks swapped)) false |},
            Ok ())
  end.

(** Whether the loop of [prepareGenerate] passes over [output] at position
    [pos], as read off the members before the loop: its entry reads as
    processed, or its chunk has no rows, or the port is finished. *)
Definition skipped (past_end : bool) (table : list bool)
    (chunks : list Chunk) (pos : nat) (output : OutputPort) : bool :=
  table_read table (S pos) past_end
  || negb (hasRows (chunks !!! pos))
  || out_isFinished output.

(** The members with [is_generating_phase] cleared. *)
Definition consuming (this : ResizeByHashTransform) : ResizeByHashTransform :=
  {| input := input this; outputs := outputs this;
     is_generating_phase := false;
     input_chunk := input_chunk this; output_chunks := output_chunks this;
     was_output_processed := was_output_processed this |}.

(** The members after the first exit check: the input closed. *)
Definition input_closed (this : ResizeByHashTransform) : ResizeByHashTransform :=
  {| input := close (input this); outputs := outputs this;
     is_generating_phase := is_generating_phase this;
     input_chunk := input_chunk this; output_chunks := output_chunks this;
     was_output_processed := was_output_processed this |}.

(** The members after the second exit check: every output finished. *)
Definition outputs_finished (this : ResizeByHashTransform)
    : ResizeByHashTransform :=
  {| input := input this; outputs := finish <$> outputs this;
     is_generating_phase := is_generating_phase this;
     input_chunk := input_chunk this; output_chunks := output_chunks this;
     was_output_processed := was_output_processed this |}.

(** What the producer does between two calls: it leaves [chunk] in the input
    port. *)
Definition producer_pushes (chunk : Chunk) (this : ResizeByHashTransform)
    : ResizeByHashTransform :=
  {| input := {| in_finished := in_finished (input this);
                 in_closed := in_closed (input this);
                 in_needed := in_needed (input this);
                 in_data := Some chunk |};
     outputs := outputs this;
     is_generating_phase := is_generating_phase this;
     input_chunk := input_chunk this; output_chunks := output_chunks this;
     was_output_processed := was_output_processed this |}.

(** What the consumers do between two calls: [ready] says, port by port,
    whether the port can take a push at the next call. *)
Definition consumers_set (ready : list bool) (this : ResizeByHashTransform)
    : ResizeByHashTransform :=
  {| input := input this;
     outputs := zip_with (λ b output,
                  {| out_finished := out_finished output; out_can_push := b;
                     out_pushed := out_pushed output |}) ready (outputs this);
     is_generating_phase := is_generating_phase this;
     input_chunk := input_chunk this; output_chunks := output_chunks this;
     was_output_processed := was_output_processed this |}.

(** *** Calls of [prepare] in a row

    For the output at position [pos] the loop of [prepareGenerate] uses the
    entry [pos + 1] of the table.  When the table has one entry per output, as
    [work] leaves it, the entry of the last output is the memory right after
    the table: the call reads there what the memory holds, and the store of
    line 205 sets it, so the next call reads [true] there.  [InMemory] is the
    stage together with that piece of memory, and [prepare_in_memory] is a
    call of [prepare] that starts from what the memory holds and leaves in it
    what the call has stored. *)
Record InMemory : Type := {
  stage : ResizeByHashTransform;
  past_the_table : bool
}.

Definition prepare_in_memory (m : InMemory) : Status * InMemory :=
  let r := prepare (past_the_table m) (stage m) in
  (r.1,
   {| stage := r.2;
      past_the_table :=
        if is_generating_phase (stage m)
        then past_end_after (was_output_processed (stage m))
               (prepareGenerate_accesses (past_the_table m) (stage m))
               (past_the_table m)
        else past_the_table m |}).

(** What [was_output_processed[chunk_number]] yields for the output at
    position [pos]: the flag that [prepareGenerate] tests and sets for it. *)
Definition processed_flag (m : InMemory) (pos : nat) : bool :=
  table_read (was_output_processed (stage m)) (S pos) (past_the_table m).

(** What the neighbours of the stage may do between two calls of [prepare]:
    the consumers change the flags of the output ports and the producer
    changes the input port; what the output ports have received so far and
    the other members of the stage stay. *)
Definition neighbours_step (this this' : ResizeByHashTransform) : Prop :=
  is_generating_phase this' = is_generating_phase this
  ∧ input_chunk this' = input_chunk this
  ∧ output_chunks this' = output_chunks this
  ∧ was_output_processed this' = was_output_processed this
  ∧ Forall2 (λ output output', out_pushed output' = out_pushed output)
            (outputs this) (outputs this').

(** Where a sequence of calls of [prepare] leads, the neighbours acting
    before each call; [work] does not run in between, so the calls are about
    one envelope, and nothing but the calls writes the memory after the
    table. *)
Inductive prepare_calls (m : InMemory) : InMemory → Prop :=
  | prepare_calls_none : prepare_calls m m
  | prepare_calls_more (m1 : InMemory) (this2 : ResizeByHashTransform) :
      prepare_calls m m1 →
      neighbours_step (stage m1) this2 →
      prepare_calls m
        (prepare_in_memory
           {| stage := this2; past_the_table := past_the_table m1 |}).2.

End FanOut.

Arguments OutputPort Field : clear implicits.
Arguments InputPort Field : clear implicits.
Arguments ResizeByHashTransform Field : clear implicits.
Arguments GenerateLoop Field : clear implicits.
Arguments InMemory Field : clear implicits.

(** ** Contracts of the collaborators *)

(** The rows of a batch that [selector] sends to bucket [i], in source order. *)
Definition bucket_rows (selector : list Z) (i : nat) : list nat :=
  filter (λ row, selector !! row = Some (Z.of_nat i)) (seq 0 (length selector)).

(** Whether a selector entry names one of the first [n] buckets. *)
Definition below_bucket (n : nat) (entry : option Z) : bool :=
  match entry with
  | Some s => bool_decide (0 ≤ s < Z.of_nat n)%Z
  | None => false
  end.

(** The values of [column] at [rows], in the order of [rows]. *)
Definition gather {A : Type} (column : list A) (rows : list nat) : list A :=
  omap (λ row, column !! row) rows.

(** Modelled from the spec: the column capability scatter-by-bucket-array
    ([IColumn::scatter], declared outside the sources) produces
    [num_columns] fragments; fragment [i] holds the rows whose selector
    entry is [i], in the order of the source. *)
Definition scatter_ref {A : Type} (column : list A) (num_columns : Z)
    (selector : list Z) : list (list A) :=
  (λ i, gather column (bucket_rows selector i)) <$> seq 0 (Z.to_nat num_columns).

Definition scatter_contract {A : Type}
    (scatter : list A → Z → list Z → list (list A)) : Prop :=
  ∀ column num_columns selector,
    length selector = length column →
    Forall (λ s, 0 ≤ s < num_columns)%Z selector →
    scatter column num_columns selector = scatter_ref column num_columns selector.

(** Modelled from the spec: the column capability incremental 32-bit hash
    ([IColumn::updateWeakHash32], declared outside the sources) keeps one
    [UInt32] per row, and the new entry of a row is a function of the row's
    value in the column and of the row's entry before. *)
Definition updateWeakHash32_contract {A : Type}
    (updateWeakHash32 : list A → list Z → list Z) : Prop :=
  ∀ column hash,
    length hash = length column →
    length (updateWeakHash32 column hash) = length hash
    ∧ (Forall is_UInt32 hash → Forall is_UInt32 (updateWeakHash32 column hash))
    ∧ ∀ r1 r2, r1 < length column → r2 < length column →
        column !! r1 = column !! r2 → hash !! r1 = hash !! r2 →
        updateWeakHash32 column hash !! r1 = updateWeakHash32 column hash !! r2.

(** A hash that folds a column of integers into the buffer row by row. *)
Definition updateWeakHash32_ref (column : list Z) (hash : list Z) : list Z :=
  zip_with (λ value h, (h * 31 + value * 2654435761) `mod` 2 ^ 32)%Z column hash.

(** ** Well-formed inputs *)

(** All columns of the batch are as long as its row count. *)
Definition Chunk_ok {Field : Type} (chunk : Chunk Field) : Prop :=
  Forall (λ column, length column = getNumRows chunk) (getColumns chunk).

(** What the constructor has checked. *)
Definition configured (header : Block) (this : SplittingByHashTransform)
    : Prop :=
  (2 ≤ num_outputs this)%Z
  ∧ key_columns this ≠ []
  ∧ Forall (λ column, column < columns header) (key_columns this).

(** The sub-batch of bucket [i]: every column gathered at the bucket's rows. *)
Definition sub_batch {Field : Type} (columns : list (list Field))
    (selector : list Z) (info : option (ChunkInfo (Chunk Field))) (i : nat)
    : Chunk Field :=
  mkChunk ((λ column, gather column (bucket_rows selector i)) <$> columns)
          (length (bucket_rows selector i)) info.

(** ** Scenarios

    The end-to-end scenario of the specification: four rows, the key column
    [10, 20, 10, 30], two outputs. *)

Definition example_header : Block := {| columns := 2 |}.

Definition example_input : Chunk Z :=
  mkChunk [[10; 20; 10; 30]; [1; 2; 3; 4]]%Z 4 None.

Definition example_splitter : SplittingByHashTransform :=
  {| num_outputs := 2; key_columns := [0]; hash := []; selector := [] |}.

Definition example_sub_batches : list (Chunk Z) :=
  [mkChunk [[10; 20; 10]; [1; 2; 3]]%Z 3 None; mkChunk [[30]; [4]]%Z 1 None].

Definition example_envelope (chunks : list (Chunk Z)) : Chunk Z :=
  mkChunk [] 0 (Some (ChunkInfoWithChunks chunks)).

(** [pushRef] that leaves the rows in the slot of [output_chunks]. *)
Definition chunk_stays : Chunk Z → Chunk Z := id.

(** The resizing transform as its constructor leaves it for two outputs. *)
Definition example_fresh : ResizeByHashTransform Z :=
  {| input := InputPort_new;
     outputs := [OutputPort_new; OutputPort_new];
     is_generating_phase := false;
     input_chunk := Chunk_empty;
     output_chunks := [];
     was_output_processed := [] |}.

(** The same stage once both consumers ask for data and the producer has
    left [envelope] in the input port. *)
Definition example_stage (envelope : Chunk Z) : ResizeByHashTransform Z :=
  consumers_set [true; true] (producer_pushes envelope example_fresh).

(** The stage once [prepare] has pulled the envelope and [work] has unpacked
    it. *)
Definition example_generating (chunks : list (Chunk Z)) : ResizeByHashTransform Z :=
  (work (prepare chunk_stays false (example_stage (example_envelope chunks))).2).1.

(** A stage in Consuming whose source is exhausted and whose consumers ask
    for data. *)
Definition example_exhausted : ResizeByHashTransform Z :=
  {| input := {| in_finished := true; in_closed := false; in_needed := true;
                 in_data := None |};
     outputs := outputs (consumers_set [true; true] example_fresh);
     is_generating_phase := false;
     input_chunk := Chunk_empty;
     output_chunks := [];
     was_output_processed := [] |}.

(** The stage of the scenario in Generating, the first consumer not ready,
    with the memory after the table holding [false]. *)
Definition example_blocked : InMemory Z :=
  {| stage := consumers_set [false; true] (example_generating example_sub_batches);
     past_the_table := false |}.

(** Where two calls of [prepare] lead from there, the consumers being in the
    same state before the second call. *)
Definition example_second_call : InMemory Z :=
  let m1 := (prepare_in_memory chunk_stays example_blocked).2 in
  (prepare_in_memory chunk_stays
     {| stage := consumers_set [false; true] (stage m1);
        past_the_table := past_the_table m1 |}).2.

(** *** Properties of [fillSelector] *)

Lemma fillSelector_row_length hash_data n sel row :
  length (fillSelector_row hash_data n sel row) = length sel.
Proof. unfold fillSelector_row. by rewrite !length_insert. Qed.

Lemma fillSelector_row_eq hash_data n (sel : Selector) row :
  (row < length sel)%nat →
  fillSelector_row hash_data n sel row
  = <[row := bucket_of (hash_data !!! row) n]> sel.
Proof.
  intros Hlt. unfold fillSelector_row, bucket_of.
  rewrite !list_lookup_total_insert_eq by (rewrite ?length_insert; done).
  by rewrite !list_insert_insert_eq.
Qed.

Lemma foldl_fillSelector_row_length hash_data n rows : ∀ sel,
  length (foldl (fillSelector_row hash_data n) sel rows) = length sel.
Proof.
  induction rows as [|r rows IH]; intros sel; simpl; [done|].
  by rewrite IH, fillSelector_row_length.
Qed.

(** Rows [start, start + k) are rewritten, the others are kept. *)
Lemma foldl_fillSelector_row_lookup hash_data n k : ∀ start (sel : Selector) row,
  (start + k ≤ length sel)%nat →
  foldl (fillSelector_row hash_data n) sel (seq start k) !! row
  = if decide (start ≤ row < start + k)%nat
    then Some (bucket_of (hash_data !!! row) n)
    else sel !! row.
Proof.
  induction k as [|k IH]; intros start sel row Hlen; simpl.
  - case_decide; [lia|done].
  - rewrite IH by (rewrite fillSelector_row_length; lia).
    rewrite fillSelector_row_eq by lia.
    destruct (decide (row = start)) as [->|Hne].
    + rewrite list_lookup_insert_eq by lia.
      repeat case_decide; try lia; done.
    + rewrite list_lookup_insert_ne by done.
      repeat case_decide; try lia; done.
Qed.

Lemma fillSelector_length hash n sel :
  length (fillSelector hash n sel) = length hash.
Proof.
  unfold fillSelector.
  by rewrite foldl_fillSelector_row_length, length_resize.
Qed.

Lemma fillSelector_lookup hash n sel row h :
  hash !! row = Some h →
  fillSelector hash n sel !! row = Some (bucket_of h n).
Proof.
  intros Hrow. pose proof (lookup_lt_Some _ _ _ Hrow) as Hlt.
  unfold fillSelector.
  rewrite foldl_fillSelector_row_lookup by (rewrite length_resize; lia).
  rewrite decide_True by lia.
  by rewrite (list_lookup_total_correct _ _ _ Hrow).
Qed.

(** The loop computes the same array as a row-wise map, whatever the selector
    held before. *)
Lemma fillSelector_map hash n sel :
  fillSelector hash n sel = (λ h, bucket_of h n) <$> hash.
Proof.
  apply list_eq; intros row. rewrite list_lookup_fmap.
  destruct (hash !! row) as [h|] eqn:Hrow; simpl.
  - by apply fillSelector_lookup.
  - apply lookup_ge_None. rewrite fillSelector_length.
    by apply lookup_ge_None.
Qed.

Lemma Z_shiftr_32 x : Z.shiftr x 32 = (x / 2 ^ 32)%Z.
Proof. by rewrite Z.shiftr_div_pow2. Qed.

(** Without wrap-around the entry is the floor of [h * N / 2^32]. *)
Lemma bucket_of_floor h n :
  is_UInt32 h → (0 ≤ n ≤ 2 ^ 32)%Z →
  bucket_of h n = (h * n / 2 ^ 32)%Z.
Proof.
  unfold is_UInt32, bucket_of, wrap64. intros Hh Hn.
  rewrite Z_shiftr_32. f_equal. apply Z.mod_small. nia.
Qed.

(** The entry is a bucket index for every [size_t] number of outputs. *)
Lemma bucket_of_range h n :
  is_UInt32 h → (1 ≤ n)%Z →
  (0 ≤ bucket_of h n < n)%Z.
Proof.
  unfold is_UInt32, bucket_of, wrap64. intros Hh Hn.
  rewrite Z_shiftr_32.
  assert (0 ≤ (h * n) mod 2 ^ 64 < 2 ^ 64)%Z as Hm by (apply Z.mod_pos_bound; lia).
  split; [apply Z.div_pos; lia|].
  apply Z.div_lt_upper_bound; [lia|].
  destruct (decide (n ≤ 2 ^ 32)%Z) as [Hle|Hgt].
  - rewrite Z.mod_small by nia. nia.
  - nia.
Qed.

Lemma bucket_of_zero n : bucket_of 0 n = 0%Z.
Proof. unfold bucket_of, wrap64. by rewrite Z.mul_0_l. Qed.

Lemma bucket_of_max n :
  (1 ≤ n ≤ 2 ^ 32)%Z → bucket_of UInt32_max n = (n - 1)%Z.
Proof.
  intros Hn. rewrite bucket_of_floor by (unfold is_UInt32, UInt32_max; lia).
  unfold UInt32_max.
  replace ((2 ^ 32 - 1) * n)%Z with ((n - 1) * 2 ^ 32 + (2 ^ 32 - n))%Z by lia.
  rewrite Z.div_add_l by lia. rewrite Z.div_small by lia. lia.
Qed.

(** C2 (as amended): for every 32-bit hash value [h] and every number of
    outputs [N] with [2 <= N <= 2^32], [fillSelector] stores in the row's
    entry the bucket [floor (h * N / 2^32)]; the 64-bit product does not wrap;
    the entry lies in [0, N); [h = 0] gives bucket [0] and [h = 2^32 - 1]
    gives bucket [N - 1]. *)
Theorem fillSelector_bucket (hash : WeakHash32) (N : Z) (selector : Selector)
    (row : nat) (h : Z) :
  is_UInt32 h → (2 ≤ N ≤ 2 ^ 32)%Z → hash !! row = Some h →
  fillSelector hash N selector !! row = Some (h * N / 2 ^ 32)%Z
  ∧ wrap64 (h * N) = (h * N)%Z
  ∧ (0 ≤ h * N / 2 ^ 32 < N)%Z
  ∧ (h = 0%Z → fillSelector hash N selector !! row = Some 0%Z)
  ∧ (h = UInt32_max → fillSelector hash N selector !! row = Some (N - 1)%Z).
Proof.
  intros Hh HN Hrow.
  pose proof (fillSelector_lookup hash N selector row h Hrow) as Hsel.
  rewrite Hsel.
  split; [|split; [|split; [|split]]].
  - by rewrite bucket_of_floor by (done || lia).
  - unfold wrap64. apply Z.mod_small. unfold is_UInt32 in Hh. nia.
  - rewrite <- bucket_of_floor by (done || lia). apply bucket_of_range; [done|lia].
  - intros ->. by rewrite bucket_of_zero.
  - intros ->. by rewrite bucket_of_max by lia.
Qed.

Lemma fillSelector_bucket_witness :
  fillSelector [0; 2147483648; 4294967295]%Z 3 [] !! 1%nat
  = Some (2147483648 * 3 / 2 ^ 32)%Z.
Proof.
  refine (proj1 (fillSelector_bucket _ 3 [] 1 2147483648%Z _ _ _));
    [unfold is_UInt32; lia | lia | reflexivity].
Defined.

(** C2 (as stated) fails for a [size_t] number of outputs above [2^32]: with
    [N = 2^33] and [h = 2^31] the product is [2^64] and wraps to [0], and with
    [N = 2^32 + 1] the largest hash value lands in bucket [N - 2]. *)
Lemma fillSelector_bucket_counterexample :
  (is_UInt32 (2 ^ 31) ∧ 2 ≤ 2 ^ 33 < 2 ^ 64
   ∧ fillSelector [2 ^ 31] (2 ^ 33) [] = [0]
   ∧ 2 ^ 31 * 2 ^ 33 / 2 ^ 32 = 2 ^ 32)%Z
  ∧ (is_UInt32 UInt32_max ∧ 2 ≤ 2 ^ 32 + 1 < 2 ^ 64
     ∧ fillSelector [UInt32_max] (2 ^ 32 + 1) [] = [2 ^ 32 + 1 - 2])%Z.
Proof.
  unfold is_UInt32, UInt32_max. split_and!; try lia; by vm_compute.
Qed.


(** *** Rows of a bucket *)

Lemma elem_of_bucket_rows selector i row :
  row ∈ bucket_rows selector i ↔ selector !! row = Some (Z.of_nat i).
Proof.
  unfold bucket_rows. rewrite list_elem_of_filter, elem_of_seq.
  split; [by intros [? _]|]. intros Hrow. split; [done|].
  apply lookup_lt_Some in Hrow. lia.
Qed.

Lemma bucket_rows_lt selector i row :
  row ∈ bucket_rows selector i → row < length selector.
Proof. rewrite elem_of_bucket_rows. apply lookup_lt_Some. Qed.

Lemma StronglySorted_lt_seq start len : StronglySorted lt (seq start len).
Proof.
  revert start. induction len as [|len IH]; intros start; simpl; constructor.
  - apply IH.
  - apply Forall_forall. intros x Hx%elem_of_seq. lia.
Qed.

Lemma StronglySorted_filter {A : Type} (R : relation A) (P : A → Prop)
    `{!∀ x, Decision (P x)} (l : list A) :
  StronglySorted R l → StronglySorted R (filter P l).
Proof.
  induction 1 as [|x l Hl IH Hx]; [constructor|].
  rewrite filter_cons. case_decide; [|done].
  constructor; [done|].
  apply Forall_forall. intros y [_ Hy]%list_elem_of_filter.
  by eapply Forall_forall in Hx.
Qed.

(** The rows of a bucket are listed in increasing order. *)
Lemma bucket_rows_sorted selector i : StronglySorted lt (bucket_rows selector i).
Proof. apply StronglySorted_filter, StronglySorted_lt_seq. Qed.

Lemma below_bucket_S n entry :
  below_bucket (S n) entry
  = bool_decide (entry = Some (Z.of_nat n)) || below_bucket n entry.
Proof.
  unfold below_bucket. destruct entry as [s|]; [|done].
  repeat case_bool_decide; simpl; try done; try lia.
  all: exfalso; match goal with H : Some _ ≠ Some _ |- _ => apply H; f_equal; lia | H : Some _ = Some _ |- _ => injection H as ->; lia end.
Qed.

Lemma bucket_rows_below {A : Type} (f : A → option Z) (l : list A) (n : nat) :
  concat ((λ i, filter (λ x, f x = Some (Z.of_nat i)) l) <$> seq 0 n)
  ≡ₚ filter (λ x, below_bucket n (f x)) l.
Proof.
  induction n as [|n IH].
  - simpl. induction l as [|x l IHl]; [done|].
    rewrite filter_cons_False; [done|].
    unfold below_bucket. destruct (f x); [|by intros []].
    intros ?%bool_decide_unpack. lia.
  - rewrite seq_S, fmap_app, concat_app, IH. simpl. rewrite app_nil_r.
    clear IH. induction l as [|x l IHl]; [done|].
    rewrite !filter_cons, below_bucket_S.
    destruct (decide (f x = Some (Z.of_nat n))) as [Hn|Hn].
    + assert (¬ below_bucket n (f x)) as Hb.
      { rewrite Hn. intros ?%bool_decide_unpack. lia. }
      rewrite (decide_False _ _ Hb).
      rewrite bool_decide_eq_true_2 by done. simpl.
      rewrite <- IHl. by rewrite <- Permutation_middle.
    + rewrite bool_decide_eq_false_2 by done. simpl.
      destruct (decide (below_bucket n (f x))); simpl; by rewrite IHl.
Qed.

Lemma filter_Forall_id {A : Type} (P : A → Prop) `{!∀ x, Decision (P x)} (l : list A) :
  Forall P l → filter P l = l.
Proof.
  induction 1 as [|x l Hx _ IH]; [done|].
  by rewrite filter_cons_True, IH.
Qed.

(** Every row of the batch is in the list of exactly one bucket, once. *)
Lemma bucket_rows_partition selector (N : Z) :
  Forall (λ s, 0 ≤ s < N)%Z selector →
  concat (bucket_rows selector <$> seq 0 (Z.to_nat N)) ≡ₚ seq 0 (length selector).
Proof.
  intros Hsel. unfold bucket_rows.
  rewrite (bucket_rows_below (λ row, selector !! row)).
  rewrite filter_Forall_id; [done|].
  apply Forall_forall. intros row Hrow%elem_of_seq.
  destruct (selector !! row) as [s|] eqn:Hs; simpl.
  - eapply Forall_lookup_1 in Hsel; [|done]. simpl in Hsel.
    apply bool_decide_pack. lia.
  - apply lookup_ge_None in Hs. lia.
Qed.

Lemma length_gather {A : Type} (column : list A) (rows : list nat) :
  Forall (λ row, row < length column) rows →
  length (gather column rows) = length rows.
Proof.
  unfold gather. induction 1 as [|row rows Hrow _ IH]; [done|].
  destruct (lookup_lt_is_Some_2 column row Hrow) as [x Hx].
  cbn. rewrite Hx. cbn. by rewrite IH.
Qed.

Lemma length_gather_bucket_rows {A : Type} (column : list A) selector i :
  length selector = length column →
  length (gather column (bucket_rows selector i)) = length (bucket_rows selector i).
Proof.
  intros Hlen. apply length_gather, Forall_forall.
  intros row Hrow%bucket_rows_lt. lia.
Qed.

(** *** Loops that rewrite the entries of a vector one index at a time *)

Lemma foldlM_seq_update {A : Type} `{!Inhabited A}
    (body : list A → nat → Result (list A)) (ok : nat → A → Prop)
    (h : nat → A → A) (k : nat) : ∀ (start : nat) (l : list A),
  start + k ≤ length l →
  (∀ l' i, ok i (l' !!! i) → body l' i = Ok (<[i := h i (l' !!! i)]> l')) →
  (∀ i, start ≤ i < start + k → ok i (l !!! i)) →
  ∃ l', foldlM body l (seq start k) = Ok l'
        ∧ length l' = length l
        ∧ ∀ j, l' !! j = if decide (start ≤ j < start + k)
                         then Some (h j (l !!! j)) else l !! j.
Proof.
  induction k as [|k IH]; intros start l Hlen Hbody Hok.
  - exists l. split_and!; [done..|]. intros j. case_decide; [lia|done].
  - cbn [seq foldlM]. rewrite Hbody by (apply Hok; lia). cbn.
    destruct (IH (S start) (<[start := h start (l !!! start)]> l))
      as (l' & Hrun & Hlen' & Hl').
    + rewrite length_insert. lia.
    + done.
    + intros i Hi. rewrite list_lookup_total_insert_ne by lia. apply Hok. lia.
    + exists l'. rewrite Hrun, Hlen', length_insert. split_and!; [done..|].
      intros j. rewrite Hl'.
      destruct (decide (j = start)) as [->|Hne].
      * rewrite decide_False by lia. rewrite decide_True by lia.
        apply list_lookup_insert_eq. lia.
      * rewrite list_lookup_total_insert_ne, list_lookup_insert_ne by done.
        repeat case_decide; try lia; done.
Qed.

Section PartitionProofs.
Context {Field : Type}.
Variable scatter : list Field → Z → list Z → list (list Field).
Variable updateWeakHash32 : list Field → list Z → list Z.
Variable hash_init : Z.
Hypothesis scatter_ok : scatter_contract scatter.
Hypothesis hash_ok : updateWeakHash32_contract updateWeakHash32.
Hypothesis hash_init_ok : is_UInt32 hash_init.

Implicit Types (column : list Field) (selector : list Z) (chunks : list (Chunk Field)).

Lemma scatter_lookup_total column N selector i :
  length selector = length column →
  Forall (λ s, 0 ≤ s < N)%Z selector →
  i < Z.to_nat N →
  scatter column N selector !!! i = gather column (bucket_rows selector i).
Proof.
  intros Hlen Hsel Hi. rewrite scatter_ok by done. unfold scatter_ref.
  apply list_lookup_total_correct.
  rewrite list_lookup_fmap, lookup_seq_lt by done. done.
Qed.

(** The loop of the first column. *)
Lemma splitChunk_first_loop column N selector chunks :
  length selector = length column →
  Forall (λ s, 0 ≤ s < N)%Z selector →
  length chunks = Z.to_nat N →
  ∃ chunks', foldlM (splitChunk_first (scatter column N selector)) chunks
                    (seq 0 (Z.to_nat N)) = Ok chunks'
    ∧ length chunks' = Z.to_nat N
    ∧ ∀ i, i < Z.to_nat N →
        chunks' !! i = Some (sub_batch [column] selector (getChunkInfo (chunks !!! i)) i).
Proof.
  intros Hlen Hsel Hchunks.
  destruct (foldlM_seq_update
    (splitChunk_first (scatter column N selector)) (λ _ _, True)
    (λ i (old : Chunk Field),
       mkChunk [scatter column N selector !!! i]
               (length (scatter column N selector !!! i)) (getChunkInfo old))
    (Z.to_nat N) 0 chunks) as (chunks' & Hrun & Hlen' & Hl'); [lia| |done|].
  - intros l' i _. unfold splitChunk_first, setColumns. cbn.
    rewrite decide_True; [done|]. by repeat constructor.
  - exists chunks'. split_and!; [done|lia|].
    intros i Hi. rewrite Hl', decide_True by lia.
    rewrite scatter_lookup_total by done.
    unfold sub_batch. cbn. by rewrite length_gather_bucket_rows.
Qed.

(** The loop of a later column. *)
Lemma splitChunk_next_loop column N selector chunks :
  length selector = length column →
  Forall (λ s, 0 ≤ s < N)%Z selector →
  length chunks = Z.to_nat N →
  (∀ i, i < Z.to_nat N → getNumRows (chunks !!! i) = length (bucket_rows selector i)) →
  ∃ chunks', foldlM (splitChunk_next (scatter column N selector)) chunks
                    (seq 0 (Z.to_nat N)) = Ok chunks'
    ∧ length chunks' = Z.to_nat N
    ∧ ∀ i, i < Z.to_nat N →
        chunks' !! i
        = Some (mkChunk (getColumns (chunks !!! i)
                           ++ [gather column (bucket_rows selector i)])
                        (getNumRows (chunks !!! i)) (getChunkInfo (chunks !!! i))).
Proof.
  intros Hlen Hsel Hchunks Hrows.
  destruct (foldlM_seq_update
    (splitChunk_next (scatter column N selector))
    (λ i (old : Chunk Field),
       length (scatter column N selector !!! i) = getNumRows old)
    (λ i (old : Chunk Field),
       mkChunk (getColumns old ++ [scatter column N selector !!! i])
               (getNumRows old) (getChunkInfo old))
    (Z.to_nat N) 0 chunks) as (chunks' & Hrun & Hlen' & Hl'); [lia| | |].
  - intros l' i Hok. unfold splitChunk_next, addColumn. cbn.
    by rewrite decide_True.
  - intros i Hi. rewrite scatter_lookup_total, Hrows by (done || lia).
    by apply length_gather_bucket_rows.
  - exists chunks'. split_and!; [done|lia|].
    intros i Hi. rewrite Hl', decide_True by lia.
    by rewrite scatter_lookup_total.
Qed.


(** The loop over the columns, once the first column is done. *)
Lemma splitChunk_later_columns selector N
    (info : nat → option (ChunkInfo (Chunk Field))) : ∀ rest done chunks,
  Forall (λ column, length selector = length column) rest →
  Forall (λ s, 0 ≤ s < N)%Z selector →
  length chunks = Z.to_nat N →
  (∀ i, i < Z.to_nat N → chunks !! i = Some (sub_batch done selector (info i) i)) →
  ∃ chunks', foldlM (splitChunk_column scatter selector N) (false, chunks) rest
             = Ok (false, chunks')
    ∧ length chunks' = Z.to_nat N
    ∧ ∀ i, i < Z.to_nat N →
        chunks' !! i = Some (sub_batch (done ++ rest) selector (info i) i).
Proof.
  induction rest as [|column rest IH]; intros done chunks Hrest Hsel Hlen Hchunks.
  - exists chunks. rewrite app_nil_r. done.
  - apply Forall_cons in Hrest as [Hcol Hrest].
    assert (∀ i, i < Z.to_nat N →
              chunks !!! i = sub_batch done selector (info i) i) as Htotal.
    { intros i Hi. by apply list_lookup_total_correct, Hchunks. }
    destruct (splitChunk_next_loop column N selector chunks)
      as (chunks1 & Hrun1 & Hlen1 & Hl1); [done..| |].
    { intros i Hi. by rewrite Htotal. }
    destruct (IH (done ++ [column]) chunks1) as (chunks' & Hrun & Hlen' & Hl');
      [done..| |].
    { intros i Hi. rewrite Hl1, Htotal by done.
      unfold sub_batch. cbn. by rewrite fmap_app. }
    exists chunks'. split_and!; [|done|].
    + cbn [foldlM]. unfold splitChunk_column at 2. rewrite Hrun1. cbn. done.
    + intros i Hi. rewrite Hl' by done. by rewrite <- app_assoc.
Qed.

(** [splitChunk] on a batch with at least one column: output [i] is the
    sub-batch of bucket [i], with the attachment the slot had before. *)
Lemma splitChunk_spec (chunk : Chunk Field) selector N chunks :
  Chunk_ok chunk →
  getColumns chunk ≠ [] →
  length selector = getNumRows chunk →
  Forall (λ s, 0 ≤ s < N)%Z selector →
  ∃ chunks', splitChunk scatter chunk selector N chunks = Ok chunks'
    ∧ length chunks' = Z.to_nat N
    ∧ ∀ i, i < Z.to_nat N →
        chunks' !! i
        = Some (sub_batch (getColumns chunk) selector
                  (getChunkInfo (resize (Z.to_nat N) Chunk_empty chunks !!! i)) i).
Proof.
  intros Hok Hcols Hlen Hsel. unfold splitChunk.
  destruct (getColumns chunk) as [|column rest] eqn:Hcolumns; [done|].
  unfold Chunk_ok in Hok. rewrite Hcolumns in Hok.
  apply Forall_cons in Hok as [Hcol Hrest].
  set (resized := resize (Z.to_nat N) Chunk_empty chunks).
  destruct (splitChunk_first_loop column N selector resized)
    as (chunks1 & Hrun1 & Hlen1 & Hl1); [lia|done|by apply length_resize|].
  destruct (splitChunk_later_columns selector N
              (λ i, getChunkInfo (resized !!! i)) rest [column] chunks1)
    as (chunks' & Hrun & Hlen' & Hl'); [|done..|].
  { eapply Forall_impl; [exact Hrest|]. cbn. lia. }
  exists chunks'. split_and!; [|done..].
  cbn [foldlM]. unfold splitChunk_column at 2. rewrite Hrun1. cbn.
  rewrite Hrun. done.
Qed.


(** *** The hash buffer *)

Lemma key_column_lookup (chunk : Chunk Field) (k : nat) :
  Chunk_ok chunk → k < length (getColumns chunk) →
  getColumns chunk !! k = Some (getColumns chunk !!! k)
  ∧ length (getColumns chunk !!! k) = getNumRows chunk.
Proof.
  intros Hok Hk. destruct (lookup_lt_is_Some_2 _ _ Hk) as [column Hcolumn].
  rewrite (list_lookup_total_correct _ _ _ Hcolumn). split; [done|].
  by eapply (Forall_lookup_1 _ _ _ _ Hok).
Qed.

(** Folding the key columns into a buffer keeps its size and its range, and
    keeps two rows equal when they are equal in every key column. *)
Lemma fold_updateWeakHash32 (chunk : Chunk Field) (r1 r2 : nat) :
  ∀ (keys : list nat) (hash : list Z),
  Chunk_ok chunk →
  Forall (λ k, k < length (getColumns chunk)) keys →
  length hash = getNumRows chunk →
  let hash' := foldl (λ hash k, updateWeakHash32 (getColumns chunk !!! k) hash)
                     hash keys in
  length hash' = getNumRows chunk
  ∧ (Forall is_UInt32 hash → Forall is_UInt32 hash')
  ∧ (r1 < getNumRows chunk → r2 < getNumRows chunk →
     Forall (λ k, (getColumns chunk !!! k) !! r1 = (getColumns chunk !!! k) !! r2) keys →
     hash !! r1 = hash !! r2 → hash' !! r1 = hash' !! r2).
Proof.
  induction keys as [|k keys IH]; intros hash Hok Hkeys Hlen; cbn.
  - done.
  - apply Forall_cons in Hkeys as [Hk Hkeys].
    destruct (key_column_lookup chunk k Hok Hk) as [_ Hcol].
    destruct (hash_ok (getColumns chunk !!! k) hash) as (Hl & Hr & Hrows); [lia|].
    destruct (IH (updateWeakHash32 (getColumns chunk !!! k) hash) Hok Hkeys)
      as (Hl' & Hr' & Hrows'); [lia|].
    split_and!; [done|by auto|].
    intros Hr1 Hr2 Heq Hhash. apply Forall_cons in Heq as [Heqk Heq].
    apply Hrows'; [done..|]. apply Hrows; [lia|lia|done..].
Qed.

Lemma calculateWeakHash32_length (chunk : Chunk Field) (keys : list nat) :
  Chunk_ok chunk →
  Forall (λ k, k < length (getColumns chunk)) keys →
  length (calculateWeakHash32 updateWeakHash32 hash_init chunk keys)
  = getNumRows chunk.
Proof.
  intros Hok Hkeys. unfold calculateWeakHash32, WeakHash32_reset.
  by destruct (fold_updateWeakHash32 chunk 0 0 keys
                 (replicate (getNumRows chunk) hash_init) Hok Hkeys)
    as (Hl & _ & _); [by rewrite length_replicate|].
Qed.

Lemma calculateWeakHash32_range (chunk : Chunk Field) (keys : list nat) :
  Chunk_ok chunk →
  Forall (λ k, k < length (getColumns chunk)) keys →
  Forall is_UInt32 (calculateWeakHash32 updateWeakHash32 hash_init chunk keys).
Proof.
  intros Hok Hkeys. unfold calculateWeakHash32, WeakHash32_reset.
  destruct (fold_updateWeakHash32 chunk 0 0 keys
              (replicate (getNumRows chunk) hash_init) Hok Hkeys)
    as (_ & Hr & _); [by rewrite length_replicate|].
  apply Hr, Forall_replicate. done.
Qed.

Lemma calculateWeakHash32_rows (chunk : Chunk Field) (keys : list nat) r1 r2 :
  Chunk_ok chunk →
  Forall (λ k, k < length (getColumns chunk)) keys →
  r1 < getNumRows chunk → r2 < getNumRows chunk →
  Forall (λ k, (getColumns chunk !!! k) !! r1 = (getColumns chunk !!! k) !! r2) keys →
  calculateWeakHash32 updateWeakHash32 hash_init chunk keys !! r1
  = calculateWeakHash32 updateWeakHash32 hash_init chunk keys !! r2.
Proof.
  intros Hok Hkeys Hr1 Hr2 Heq. unfold calculateWeakHash32, WeakHash32_reset.
  destruct (fold_updateWeakHash32 chunk r1 r2 keys
              (replicate (getNumRows chunk) hash_init) Hok Hkeys)
    as (_ & _ & Hrows); [by rewrite length_replicate|].
  apply Hrows; [done..|].
  by rewrite !lookup_replicate_2.
Qed.

(** The selector that [transform] fills has one bucket index per row. *)
Lemma transform_selector (chunk : Chunk Field) (keys : list nat) (N : Z) sel :
  Chunk_ok chunk →
  Forall (λ k, k < length (getColumns chunk)) keys →
  (1 ≤ N)%Z →
  let selector' :=
    fillSelector (calculateWeakHash32 updateWeakHash32 hash_init chunk keys) N sel in
  length selector' = getNumRows chunk ∧ Forall (λ s, 0 ≤ s < N)%Z selector'.
Proof.
  intros Hok Hkeys HN.
  pose proof (calculateWeakHash32_length chunk keys Hok Hkeys) as Hlen.
  pose proof (calculateWeakHash32_range chunk keys Hok Hkeys) as Hrange.
  cbn. rewrite fillSelector_length. split; [done|].
  rewrite fillSelector_map. apply Forall_fmap.
  eapply Forall_impl; [exact Hrange|]. intros h Hh. cbn.
  by apply bucket_of_range.
Qed.


(** *** transform *)

Lemma gather_lookup (column : list Field) (rows : list nat) (k row : nat) :
  Forall (λ row, row < length column) rows →
  rows !! k = Some row →
  gather column rows !! k = column !! row.
Proof.
  unfold gather. intros Hrows. revert k.
  induction Hrows as [|row' rows Hrow' _ IH]; intros k Hk; [done|].
  destruct (lookup_lt_is_Some_2 column row' Hrow') as [x Hx].
  cbn. rewrite Hx. cbn.
  destruct k as [|k]; cbn in *; [by simplify_eq|by apply IH].
Qed.

(** What [transform] returns on a batch that fits the header. *)
Lemma transform_spec (header : Block) (this : SplittingByHashTransform)
    (input_chunk output_chunk : Chunk Field) :
  configured header this →
  Chunk_ok input_chunk →
  length (getColumns input_chunk) = columns header →
  getChunkInfo output_chunk ≠ Some OtherChunkInfo →
  ∃ this' output_chunk' chunks,
    transform scatter updateWeakHash32 hash_init this input_chunk output_chunk
    = Ok (this', output_chunk')
    ∧ num_outputs this' = num_outputs this
    ∧ key_columns this' = key_columns this
    ∧ hash this' = calculateWeakHash32 updateWeakHash32 hash_init input_chunk
                                       (key_columns this)
    ∧ selector this' = fillSelector (hash this') (num_outputs this) (selector this)
    ∧ length (selector this') = getNumRows input_chunk
    ∧ Forall (λ s, 0 ≤ s < num_outputs this)%Z (selector this')
    ∧ getColumns output_chunk' = getColumns output_chunk
    ∧ getNumRows output_chunk' = getNumRows output_chunk
    ∧ getChunkInfo output_chunk' = Some (ChunkInfoWithChunks chunks)
    ∧ length chunks = Z.to_nat (num_outputs this)
    ∧ ∀ i, i < Z.to_nat (num_outputs this) →
        ∃ info, chunks !! i
                = Some (sub_batch (getColumns input_chunk) (selector this') info i).
Proof.
  intros (HN & Hkeys & Hvalid) Hok Hcols Hinfo.
  assert (Forall (λ k, k < length (getColumns input_chunk)) (key_columns this))
    as Hvalid' by (by rewrite Hcols).
  assert (getColumns input_chunk ≠ []) as Hnonempty.
  { destruct (key_columns this) as [|k keys]; [done|].
    apply Forall_cons in Hvalid' as [Hk _].
    intros Hnil. rewrite Hnil in Hk. cbn in Hk. lia. }
  destruct (transform_selector input_chunk (key_columns this) (num_outputs this)
              (selector this) Hok Hvalid') as [Hlen Hrange]; [lia|].
  assert (∃ prev output1,
            typeid_cast_ChunkInfoWithChunks (getChunkInfo output1) = Some prev
            ∧ getColumns output1 = getColumns output_chunk
            ∧ getNumRows output1 = getNumRows output_chunk
            ∧ output1 = match getChunkInfo output_chunk with
                        | None => setChunkInfo output_chunk
                                    (Some (ChunkInfoWithChunks []))
                        | Some _ => output_chunk
                        end) as (prev & output1 & Hcast & Hc1 & Hn1 & Houtput1).
  { destruct (getChunkInfo output_chunk) as [[prev|]|] eqn:Hi; [| done |].
    - exists prev, output_chunk. by rewrite Hi.
    - exists [], (setChunkInfo output_chunk (Some (ChunkInfoWithChunks []))).
      done. }
  destruct (splitChunk_spec input_chunk _ (num_outputs this) prev
              Hok Hnonempty Hlen Hrange) as (chunks & Hsplit & Hlen' & Hl').
  unfold transform. rewrite <- Houtput1, Hcast, Hsplit. cbn.
  eexists _, _, chunks. split_and!; try done.
  intros i Hi. eexists. by apply Hl'.
Qed.


(** C1: for every input batch that fits the header and every configured
    number of outputs [N >= 2], [transform] (hash the key columns, fill the
    selector, split the chunk) succeeds and attaches exactly [N] sub-batches;
    their row counts sum to the row count of the input; sub-batch [i] holds,
    in every column, the rows of the input that the selector lists for bucket
    [i]; and the row lists of the [N] buckets together hold every row of the
    input exactly once.  The scatter and hash collaborators are assumed to
    meet their contracts. *)
Theorem transform_row_conservation (header : Block)
    (this : SplittingByHashTransform) (input_chunk output_chunk : Chunk Field) :
  configured header this →
  Chunk_ok input_chunk →
  length (getColumns input_chunk) = columns header →
  getChunkInfo output_chunk ≠ Some OtherChunkInfo →
  ∃ this' output_chunk' chunks,
    transform scatter updateWeakHash32 hash_init this input_chunk output_chunk
    = Ok (this', output_chunk')
    ∧ getChunkInfo output_chunk' = Some (ChunkInfoWithChunks chunks)
    ∧ length chunks = Z.to_nat (num_outputs this)
    ∧ sum_list (getNumRows <$> chunks) = getNumRows input_chunk
    ∧ (∀ i chunk, chunks !! i = Some chunk →
         getNumRows chunk = length (bucket_rows (selector this') i)
         ∧ getColumns chunk
           = (λ column, gather column (bucket_rows (selector this') i))
               <$> getColumns input_chunk)
    ∧ concat (bucket_rows (selector this') <$> seq 0 (Z.to_nat (num_outputs this)))
      ≡ₚ seq 0 (getNumRows input_chunk).
Proof.
  intros Hconf Hok Hcols Hinfo.
  destruct (transform_spec header this input_chunk output_chunk
              Hconf Hok Hcols Hinfo)
    as (this' & output' & chunks & Hrun & _ & _ & _ & _ & Hlen & Hrange
        & _ & _ & Hattached & Hcount & Hchunks).
  pose proof (bucket_rows_partition _ _ Hrange) as Hperm.
  rewrite Hlen in Hperm.
  exists this', output', chunks. split_and!; [done..| | |done].
  - assert (getNumRows <$> chunks
            = length <$> (bucket_rows (selector this')
                            <$> seq 0 (Z.to_nat (num_outputs this)))) as ->.
    { apply list_eq. intros i. rewrite !list_lookup_fmap.
      destruct (decide (i < Z.to_nat (num_outputs this))) as [Hi|Hi].
      - destruct (Hchunks i Hi) as [info ->]. by rewrite lookup_seq_lt.
      - rewrite (lookup_ge_None_2 chunks), lookup_seq_ge by lia. done. }
    rewrite <- length_concat, Hperm. apply length_seq.
  - intros i chunk Hi.
    destruct (Hchunks i) as [info Hsub].
    { apply lookup_lt_Some in Hi. lia. }
    rewrite Hsub in Hi. by simplify_eq.
Qed.

(** C10: [transform] attaches one sub-batch for every bucket [i < N], and
    sub-batch [i] is the stable selection of the rows the selector sends to
    bucket [i]: there is a strictly increasing list of source rows, holding
    exactly the rows whose selector entry is [i], such that every column of
    the input has its counterpart in the sub-batch, of that many rows, whose
    row [k] is the [k]-th listed source row.  The same row list serves every
    column, so the rows stay aligned across columns; the selector has one
    entry in [0, N) for every input row, so no row escapes the buckets.  The
    scatter collaborator is assumed to keep the source order within a
    fragment. *)
Theorem transform_stable (header : Block) (this : SplittingByHashTransform)
    (input_chunk output_chunk : Chunk Field) :
  configured header this →
  Chunk_ok input_chunk →
  length (getColumns input_chunk) = columns header →
  getChunkInfo output_chunk ≠ Some OtherChunkInfo →
  ∃ this' output_chunk' chunks,
    transform scatter updateWeakHash32 hash_init this input_chunk output_chunk
    = Ok (this', output_chunk')
    ∧ getChunkInfo output_chunk' = Some (ChunkInfoWithChunks chunks)
    ∧ length chunks = Z.to_nat (num_outputs this)
    ∧ length (selector this') = getNumRows input_chunk
    ∧ Forall (λ bucket, 0 ≤ bucket < num_outputs this)%Z (selector this')
    ∧ ∀ i, i < Z.to_nat (num_outputs this) →
        ∃ (chunk : Chunk Field) (rows : list nat),
          chunks !! i = Some chunk
          ∧ StronglySorted lt rows
          ∧ (∀ row, row ∈ rows ↔ selector this' !! row = Some (Z.of_nat i))
          ∧ getNumRows chunk = length rows
          ∧ Chunk_ok chunk
          ∧ length (getColumns chunk) = length (getColumns input_chunk)
          ∧ ∀ c column,
              getColumns input_chunk !! c = Some column →
              ∃ column',
                getColumns chunk !! c = Some column'
                ∧ length column' = length rows
                ∧ ∀ k row, rows !! k = Some row → column' !! k = column !! row.
Proof.
  intros Hconf Hok Hcols Hinfo.
  destruct (transform_spec header this input_chunk output_chunk
              Hconf Hok Hcols Hinfo)
    as (this' & output' & chunks & Hrun & _ & _ & _ & _ & Hlen & Hrange
        & _ & _ & Hattached & Hcount & Hchunks).
  exists this', output', chunks. split_and!; [done..|].
  intros i Hi.
  destruct (Hchunks i Hi) as [info Hsub].
  assert (∀ column, column ∈ getColumns input_chunk →
            Forall (λ row, row < length column) (bucket_rows (selector this') i))
    as Hin_range.
  { intros column Hcolumn. apply Forall_forall. intros row Hrow%bucket_rows_lt.
    eapply Forall_forall in Hok; [|exact Hcolumn]. cbn in Hok. lia. }
  exists (sub_batch (getColumns input_chunk) (selector this') info i),
         (bucket_rows (selector this') i).
  split_and!.
  - done.
  - apply bucket_rows_sorted.
  - apply elem_of_bucket_rows.
  - done.
  - unfold Chunk_ok, sub_batch. cbn. apply Forall_fmap, Forall_forall.
    intros column Hcolumn. cbn. by apply length_gather, Hin_range.
  - unfold sub_batch. cbn. by rewrite length_fmap.
  - intros c column Hc.
    assert (Forall (λ row, row < length column)
                   (bucket_rows (selector this') i)) as Hrows.
    { apply Hin_range. by eapply list_elem_of_lookup_2. }
    exists (gather column (bucket_rows (selector this') i)). split_and!.
    + unfold sub_batch. cbn. by rewrite list_lookup_fmap, Hc.
    + by apply length_gather.
    + intros k row Hk. by apply gather_lookup.
Qed.

(** C3: two rows of one input batch with the same value in every key column
    get the same entry of the hash buffer, and [fillSelector] gives them the
    same bucket index, whatever the other columns hold.  The hash
    collaborator is assumed to compute the new entry of a row from the row's
    value and its entry before. *)
Theorem key_colocation (header : Block) (this : SplittingByHashTransform)
    (input_chunk : Chunk Field) (r1 r2 : nat) :
  configured header this →
  Chunk_ok input_chunk →
  length (getColumns input_chunk) = columns header →
  r1 < getNumRows input_chunk → r2 < getNumRows input_chunk →
  (∀ k column, k ∈ key_columns this → getColumns input_chunk !! k = Some column →
     column !! r1 = column !! r2) →
  let hash' := calculateWeakHash32 updateWeakHash32 hash_init input_chunk
                                   (key_columns this) in
  let selector' := fillSelector hash' (num_outputs this) (selector this) in
  ∃ h bucket,
    hash' !! r1 = Some h ∧ hash' !! r2 = Some h
    ∧ selector' !! r1 = Some bucket ∧ selector' !! r2 = Some bucket.
Proof.
  intros (HN & Hkeys & Hvalid) Hok Hcols Hr1 Hr2 Hsame hash' selector'.
  assert (Forall (λ k, k < length (getColumns input_chunk)) (key_columns this))
    as Hvalid' by (by rewrite Hcols).
  pose proof (calculateWeakHash32_length input_chunk (key_columns this)
                Hok Hvalid') as Hlen.
  fold hash' in Hlen.
  assert (hash' !! r1 = hash' !! r2) as Heq.
  { apply calculateWeakHash32_rows; [done..|].
    apply Forall_forall. intros k Hk.
    eapply Forall_forall in Hvalid'; [|exact Hk].
    destruct (key_column_lookup input_chunk k Hok Hvalid') as [Hcolumn _].
    by eapply Hsame. }
  destruct (lookup_lt_is_Some_2 hash' r1) as [h Hh]; [lia|].
  exists h, (bucket_of h (num_outputs this)).
  split_and!; [done|by rewrite <- Heq|..];
    apply fillSelector_lookup; [done|by rewrite <- Heq].
Qed.

End PartitionProofs.

(** ** The resizing transform: properties *)

Section FanOutProofs.
Context {Field : Type}.
Variable pushRef_leaves : Chunk Field → Chunk Field.

Implicit Types (this : ResizeByHashTransform Field) (output : OutputPort Field)
  (outputs : list (OutputPort Field)) (l : GenerateLoop Field).

Local Abbreviation loop := (prepareGenerate_loop pushRef_leaves).
Local Abbreviation body := (prepareGenerate_body pushRef_leaves).

(** *** The loop of [prepareConsume] *)

Lemma prepareConsume_outputs_finished outputs b :
  Forall (λ output, out_isFinished output = true) outputs →
  prepareConsume_outputs outputs b = Some b.
Proof.
  induction 1 as [|output outputs Hfin _ IH]; [done|].
  cbn. by rewrite Hfin.
Qed.

Lemma prepareConsume_outputs_false outputs :
  Forall (λ output, out_isFinished output = true ∨ canPush output = true) outputs →
  prepareConsume_outputs outputs false = Some false.
Proof.
  induction 1 as [|output outputs Hok _ IH]; [done|].
  cbn. destruct (out_isFinished output); [done|].
  destruct Hok as [?| ->]; [done|]. done.
Qed.

Lemma prepareConsume_outputs_ready outputs :
  ¬ Forall (λ output, out_isFinished output = true) outputs →
  Forall (λ output, out_isFinished output = true ∨ canPush output = true) outputs →
  prepareConsume_outputs outputs true = Some false.
Proof.
  induction outputs as [|output outputs IH]; intros Hnot Hok.
  - destruct Hnot. constructor.
  - apply Forall_cons in Hok as [Ho Hok]. cbn.
    destruct (out_isFinished output) eqn:Hfin.
    + apply IH; [|done]. intros Hall. apply Hnot. by constructor.
    + destruct Ho as [?| ->]; [done|]. cbn.
      by apply prepareConsume_outputs_false.
Qed.

Lemma prepareConsume_outputs_true outputs b :
  prepareConsume_outputs outputs b = Some true →
  b = true ∧ Forall (λ output, out_isFinished output = true) outputs.
Proof.
  revert b. induction outputs as [|output outputs IH]; intros b; cbn.
  - intros [= ->]. by split.
  - destruct (out_isFinished output) eqn:Hfin.
    + intros [-> Hall]%IH. split; [done|]. by constructor.
    + destruct (canPush output); cbn; [|done].
      by intros [? _]%IH.
Qed.


(** *** The loop of [prepareGenerate] *)

Lemma body_skipped past_end output l :
  skipped past_end (loop_was_output_processed l) (loop_output_chunks l)
          (chunk_number l) output = true →
  body past_end output l
  = (output,
     {| has_full_ports := has_full_ports l;
        all_outputs_processed := all_outputs_processed l;
        chunk_number := S (chunk_number l);
        loop_output_chunks := loop_output_chunks l;
        loop_was_output_processed := loop_was_output_processed l;
        table_accesses := table_accesses l ++ [TableRead (S (chunk_number l))] |}).
Proof.
  unfold skipped, prepareGenerate_body. intros Hskip.
  destruct (table_read _ _ _); [done|].
  destruct (hasRows _); [|done].
  by destruct (out_isFinished output).
Qed.

Lemma body_pending past_end output l :
  skipped past_end (loop_was_output_processed l) (loop_output_chunks l)
          (chunk_number l) output = false →
  let chunk := loop_output_chunks l !!! chunk_number l in
  body past_end output l
  = if canPush output
    then (pushRef output chunk,
          {| has_full_ports := true;
             all_outputs_processed := all_outputs_processed l;
             chunk_number := S (chunk_number l);
             loop_output_chunks :=
               <[chunk_number l := pushRef_leaves chunk]> (loop_output_chunks l);
             loop_was_output_processed :=
               table_write (loop_was_output_processed l) (S (chunk_number l));
             table_accesses :=
               (table_accesses l ++ [TableRead (S (chunk_number l))])
               ++ [TableWrite (S (chunk_number l))] |})
    else (output,
          {| has_full_ports := true;
             all_outputs_processed := false;
             chunk_number := S (chunk_number l);
             loop_output_chunks := loop_output_chunks l;
             loop_was_output_processed := loop_was_output_processed l;
             table_accesses :=
               table_accesses l ++ [TableRead (S (chunk_number l))] |}).
Proof.
  unfold skipped, prepareGenerate_body. intros Hskip.
  destruct (table_read _ _ _); [done|].
  destruct (hasRows _); [|done].
  destruct (out_isFinished output); [done|].
  by destruct (canPush output).
Qed.

(** What one turn leaves alone: the entries of the table and the chunks of
    the outputs that come later, and the sizes. *)
Lemma body_frame past_end output l :
  let l' := (body past_end output l).2 in
  chunk_number l' = S (chunk_number l)
  ∧ length (loop_output_chunks l') = length (loop_output_chunks l)
  ∧ length (loop_was_output_processed l') = length (loop_was_output_processed l)
  ∧ (∀ pos, chunk_number l < pos →
       loop_output_chunks l' !!! pos = loop_output_chunks l !!! pos)
  ∧ (∀ pos, chunk_number l < pos →
       table_read (loop_was_output_processed l') (S pos) past_end
       = table_read (loop_was_output_processed l) (S pos) past_end)
  ∧ (has_full_ports l = true → has_full_ports l' = true).
Proof.
  destruct (skipped past_end (loop_was_output_processed l) (loop_output_chunks l)
              (chunk_number l) output) eqn:Hskip.
  - rewrite body_skipped by done. cbn. done.
  - rewrite body_pending by done. destruct (canPush output); cbn; [|done].
    unfold table_write, table_read. rewrite !length_insert.
    split_and!; [done..| | |done].
    + intros pos Hpos. by rewrite list_lookup_total_insert_ne by lia.
    + intros pos Hpos. by rewrite list_lookup_insert_ne by lia.
Qed.

Lemma loop_cons past_end output outputs l :
  loop past_end (output :: outputs) l
  = ((body past_end output l).1
       :: (loop past_end outputs (body past_end output l).2).1,
     (loop past_end outputs (body past_end output l).2).2).
Proof.
  cbn. destruct (prepareGenerate_body _ _ _ _) as [output' l'].
  by destruct (prepareGenerate_loop _ _ _ _).
Qed.

Lemma loop_has_full_ports_mono past_end outputs : ∀ l,
  has_full_ports l = true →
  has_full_ports (loop past_end outputs l).2 = true.
Proof.
  induction outputs as [|output outputs IH]; intros l Hl; [done|].
  rewrite loop_cons. cbn. apply IH.
  by apply (body_frame past_end output l).
Qed.

(** The two flags after the loop, read off the members before it. *)
Lemma loop_flags past_end outputs : ∀ l,
  let l' := (loop past_end outputs l).2 in
  let skip pos output :=
    skipped past_end (loop_was_output_processed l) (loop_output_chunks l)
            (chunk_number l + pos) output in
  (has_full_ports l' = true
   ↔ has_full_ports l = true
     ∨ ∃ pos output, outputs !! pos = Some output ∧ skip pos output = false)
  ∧ (all_outputs_processed l' = true
     ↔ all_outputs_processed l = true
       ∧ ∀ pos output, outputs !! pos = Some output →
           skip pos output = false → canPush output = true).
Proof.
  induction outputs as [|output outputs IH]; intros l.
  - cbn. split.
    + split; [auto|]. intros [?|(? & ? & ? & _)]; done.
    + split; [|by intros [? _]]. intros ?. split; [done|]. by intros ? ? ?.
  - rewrite loop_cons. cbn zeta. cbn [snd].
    destruct (IH (body past_end output l).2) as [IHfull IHall]. clear IH.
    destruct (body_frame past_end output l)
      as (Hnum & _ & _ & Hchunks & Htable & Hmono).
    assert (∀ pos output',
      skipped past_end (loop_was_output_processed (body past_end output l).2)
        (loop_output_chunks (body past_end output l).2)
        (chunk_number (body past_end output l).2 + pos) output'
      = skipped past_end (loop_was_output_processed l) (loop_output_chunks l)
          (chunk_number l + S pos) output') as Hshift.
    { intros pos output'. unfold skipped. rewrite Hnum.
      replace (S (chunk_number l) + pos) with (chunk_number l + S pos) by lia.
      rewrite Hchunks by lia. rewrite Htable by lia. done. }
    rewrite IHfull, IHall. clear IHfull IHall.
    setoid_rewrite Hshift.
    destruct (skipped past_end (loop_was_output_processed l)
                (loop_output_chunks l) (chunk_number l) output) eqn:Hskip.
    + rewrite body_skipped by done. cbn [snd has_full_ports all_outputs_processed].
      split.
      * split.
        -- intros [?|(pos & output' & Hlook & Hs)]; [by left|].
           right. by exists (S pos), output'.
        -- intros [?|(pos & output' & Hlook & Hs)]; [by left|].
           destruct pos as [|pos].
           ++ cbn in Hlook. injection Hlook as <-.
              rewrite Nat.add_0_r in Hs. congruence.
           ++ right. by exists pos, output'.
      * split.
        -- intros [Hall Hrest]. split; [done|].
           intros [|pos] output' Hlook Hs.
           ++ cbn in Hlook. injection Hlook as <-.
              rewrite Nat.add_0_r in Hs. congruence.
           ++ by eapply Hrest.
        -- intros [Hall Hrest]. split; [done|].
           intros pos output' Hlook Hs. by apply (Hrest (S pos)).
    + rewrite body_pending by done. split.
      * split; [|].
        -- intros _. right. exists 0, output. by rewrite Nat.add_0_r.
        -- intros _. left. by destruct (canPush output).
      * destruct (canPush output) eqn:Hpush;
          cbn [snd has_full_ports all_outputs_processed].
        -- split.
           ++ intros [Hall Hrest]. split; [done|].
              intros [|pos] output' Hlook Hs.
              ** cbn in Hlook. by injection Hlook as <-.
              ** by eapply Hrest.
           ++ intros [Hall Hrest]. split; [done|].
              intros pos output' Hlook Hs. by apply (Hrest (S pos)).
        -- split; [by intros [? _]|].
           intros [_ Hrest]. specialize (Hrest 0 output eq_refl).
           rewrite Nat.add_0_r in Hrest. specialize (Hrest Hskip). congruence.
Qed.

(** When no sub-batch was pending the loop has changed neither the ports nor
    the members. *)
Lemma loop_quiet past_end outputs : ∀ l,
  has_full_ports (loop past_end outputs l).2 = false →
  (loop past_end outputs l).1 = outputs
  ∧ loop_output_chunks (loop past_end outputs l).2 = loop_output_chunks l
  ∧ loop_was_output_processed (loop past_end outputs l).2
    = loop_was_output_processed l
  ∧ all_outputs_processed (loop past_end outputs l).2 = all_outputs_processed l.
Proof.
  induction outputs as [|output outputs IH]; intros l; [done|].
  rewrite loop_cons. cbn [fst snd]. intros Hquiet.
  destruct (skipped past_end (loop_was_output_processed l) (loop_output_chunks l)
              (chunk_number l) output) eqn:Hskip.
  - rewrite body_skipped in Hquiet |- * by done.
    cbn [fst snd] in *.
    destruct (IH _ Hquiet) as (H1 & H2 & H3 & H4).
    rewrite H1, H2, H3, H4. done.
  - assert (has_full_ports (body past_end output l).2 = true) as Hfull.
    { rewrite body_pending by done. by destruct (canPush output). }
    apply (loop_has_full_ports_mono past_end outputs) in Hfull. congruence.
Qed.

(** Every turn reads the table at the counter it has just incremented. *)
Lemma loop_accesses past_end outputs : ∀ l pos,
  pos < length outputs →
  TableRead (S (chunk_number l + pos))
  ∈ table_accesses (loop past_end outputs l).2.
Proof.
  assert (∀ outs l a, a ∈ table_accesses l →
            a ∈ table_accesses (loop past_end outs l).2) as Hkeep.
  { induction outs as [|output outs IH]; intros l a Ha; [exact Ha|].
    rewrite loop_cons. cbn [snd]. apply IH.
    unfold prepareGenerate_body.
    repeat (match goal with |- context [if ?b then _ else _] => destruct b end);
      cbn; rewrite ?elem_of_app, ?list_elem_of_singleton; auto. }
  induction outputs as [|output outputs IH]; intros l pos Hpos; [cbn in Hpos; lia|].
  rewrite loop_cons. cbn [snd].
  destruct (body_frame past_end output l) as (Hnum & _).
  destruct pos as [|pos].
  - apply Hkeep. rewrite Nat.add_0_r.
    unfold prepareGenerate_body.
    repeat (match goal with |- context [if ?b then _ else _] => destruct b end);
      cbn; rewrite ?elem_of_app, ?list_elem_of_singleton; auto.
  - replace (S (chunk_number l + S pos))
      with (S (chunk_number (body past_end output l).2 + pos)) by lia.
    apply IH. cbn in Hpos. lia.
Qed.


(** The indices the loop uses with the table are the incremented counters. *)
Lemma loop_accesses_range past_end outputs : ∀ l a,
  a ∈ table_accesses (loop past_end outputs l).2 →
  a ∈ table_accesses l
  ∨ chunk_number l < TableAccess_index a ≤ chunk_number l + length outputs.
Proof.
  induction outputs as [|output outputs IH]; intros l a Ha; [by left|].
  rewrite loop_cons in Ha. cbn [snd] in Ha.
  destruct (body_frame past_end output l) as (Hnum & _).
  apply IH in Ha as [Ha|Ha]; [|right; cbn [length]; lia].
  assert (a ∈ table_accesses l ∨ TableAccess_index a = S (chunk_number l))
    as [?|?]; [|by left|right; cbn [length]; lia].
  revert Ha. unfold prepareGenerate_body.
  repeat (match goal with |- context [if ?b then _ else _] => destruct b end);
    cbn; rewrite ?elem_of_app, ?list_elem_of_singleton;
    intros Ha; destruct_or?; subst; auto.
Qed.

(** An entry of the table that is set stays set. *)
Lemma loop_table_mono past_end outputs : ∀ l index,
  loop_was_output_processed l !! index = Some true →
  loop_was_output_processed (loop past_end outputs l).2 !! index = Some true.
Proof.
  induction outputs as [|output outputs IH]; intros l index Hset; [done|].
  rewrite loop_cons. cbn [snd]. apply IH.
  unfold prepareGenerate_body.
  repeat (match goal with |- context [if ?b then _ else _] => destruct b end);
    cbn; try done.
  unfold table_write. destruct (decide (index = S (chunk_number l))) as [->|?].
  - apply list_lookup_insert_eq. by eapply lookup_lt_Some.
  - by rewrite list_lookup_insert_ne.
Qed.

Lemma skipped_shift past_end output l pos output' :
  skipped past_end (loop_was_output_processed (body past_end output l).2)
    (loop_output_chunks (body past_end output l).2)
    (chunk_number (body past_end output l).2 + pos) output'
  = skipped past_end (loop_was_output_processed l) (loop_output_chunks l)
      (chunk_number l + S pos) output'.
Proof.
  destruct (body_frame past_end output l)
    as (Hnum & _ & _ & Hchunks & Htable & _).
  unfold skipped. rewrite Hnum.
  replace (S (chunk_number l) + pos) with (chunk_number l + S pos) by lia.
  rewrite Hchunks by lia. rewrite Htable by lia. done.
Qed.

(** The port of each output after the loop, read off the members before
    it. *)
Lemma loop_outputs past_end outputs : ∀ l pos output,
  outputs !! pos = Some output →
  (loop past_end outputs l).1 !! pos
  = Some (if skipped past_end (loop_was_output_processed l)
                (loop_output_chunks l) (chunk_number l + pos) output
          then output
          else if canPush output
               then pushRef output (loop_output_chunks l !!! (chunk_number l + pos))
               else output).
Proof.
  induction outputs as [|output0 outputs IH]; intros l pos output Hlook; [done|].
  rewrite loop_cons. cbn [fst].
  destruct pos as [|pos]; cbn in Hlook.
  - injection Hlook as ->. cbn. rewrite Nat.add_0_r.
    destruct (skipped _ _ _ _ _) eqn:Hskip.
    + by rewrite body_skipped.
    + rewrite body_pending by done. by destruct (canPush output).
  - cbn. rewrite (IH _ pos output Hlook), skipped_shift.
    destruct (body_frame past_end output0 l)
      as (Hnum & _ & _ & Hchunks & _).
    rewrite Hnum.
    replace (S (chunk_number l) + pos) with (chunk_number l + S pos) by lia.
    rewrite Hchunks by lia. done.
Qed.

(** A push is recorded in the entry after the position of the output, when
    the table has such an entry. *)
Lemma loop_marks_pushed past_end outputs : ∀ l pos output,
  outputs !! pos = Some output →
  skipped past_end (loop_was_output_processed l) (loop_output_chunks l)
          (chunk_number l + pos) output = false →
  canPush output = true →
  S (chunk_number l + pos) < length (loop_was_output_processed l) →
  loop_was_output_processed (loop past_end outputs l).2
    !! S (chunk_number l + pos) = Some true.
Proof.
  induction outputs as [|output0 outputs IH];
    intros l pos output Hlook Hskip Hpush Hlt; [done|].
  rewrite loop_cons. cbn [snd].
  destruct pos as [|pos]; cbn in Hlook.
  - injection Hlook as ->. rewrite Nat.add_0_r in *.
    apply loop_table_mono. rewrite body_pending, Hpush by done. cbn.
    unfold table_write. by apply list_lookup_insert_eq.
  - destruct (body_frame past_end output0 l)
      as (Hnum & _ & Hlen & _).
    replace (S (chunk_number l + S pos))
      with (S (chunk_number (body past_end output0 l).2 + pos)) by lia.
    apply (IH _ pos output Hlook); [|done|lia].
    by rewrite skipped_shift.
Qed.


(** *** prepare *)

Lemma prepareGenerate_unfold past_end this :
  prepareGenerate pushRef_leaves past_end this
  = let r := loop past_end (outputs this) (GenerateLoop_start this) in
    if has_full_ports r.2
    then (PortFull, prepareGenerate_after this r.1 r.2)
    else prepareConsume (prepareGenerate_after this r.1 r.2).
Proof.
  unfold prepareGenerate. by destruct (prepareGenerate_loop _ _ _ _).
Qed.

(** A call in which no sub-batch is pending hands over to [prepareConsume]. *)
Lemma prepareGenerate_quiet past_end this :
  has_full_ports (loop past_end (outputs this) (GenerateLoop_start this)).2 = false →
  prepareGenerate pushRef_leaves past_end this = prepareConsume (consuming this).
Proof.
  intros Hquiet. rewrite prepareGenerate_unfold. cbn zeta. rewrite Hquiet.
  destruct (loop_quiet past_end _ _ Hquiet) as (H1 & H2 & H3 & H4).
  unfold prepareGenerate_after. rewrite H1, H2, H3, H4. done.
Qed.

Lemma prepareConsume_keeps_pushed this pos output :
  outputs this !! pos = Some output →
  ∃ output', outputs (prepareConsume this).2 !! pos = Some output'
             ∧ out_pushed output' = out_pushed output.
Proof.
  intros Hlook. unfold prepareConsume.
  destruct (prepareConsume_outputs (outputs this) true) as [[]|];
    [by exists output| |by exists output].
  destruct (in_isFinished (input this)).
  - exists (finish output). cbn. by rewrite list_lookup_fmap, Hlook.
  - destruct (hasData _); cbn; by exists output.
Qed.

(** An output whose entry of the table is set gets nothing from a call of
    [prepare] in the Generating phase. *)
Lemma prepare_skips_recorded (past_end : bool) this pos output :
  is_generating_phase this = true →
  outputs this !! pos = Some output →
  was_output_processed this !! S pos = Some true →
  ∃ output', outputs (prepare pushRef_leaves past_end this).2 !! pos = Some output'
             ∧ out_pushed output' = out_pushed output.
Proof.
  intros Hphase Hlook Hset. unfold prepare. rewrite Hphase.
  rewrite prepareGenerate_unfold. cbn zeta.
  pose proof (loop_outputs past_end (outputs this) (GenerateLoop_start this)
                pos output Hlook) as Hport.
  cbn [GenerateLoop_start loop_was_output_processed loop_output_chunks
       chunk_number] in Hport.
  assert (skipped past_end (was_output_processed this) (output_chunks this)
            (0 + pos) output = true) as Hskip.
  { unfold skipped, table_read. cbn. by rewrite Hset. }
  rewrite Hskip in Hport.
  destruct (has_full_ports _).
  - by exists output.
  - by apply prepareConsume_keeps_pushed.
Qed.

(** A sub-batch that a call of [prepare] pushes to an output other than the
    last is recorded in the table, at the entry after the position of the
    output. *)
Lemma prepare_records_delivery (past_end : bool) this pos output :
  is_generating_phase this = true →
  outputs this !! pos = Some output →
  skipped past_end (was_output_processed this) (output_chunks this) pos output
  = false →
  canPush output = true →
  S pos < length (was_output_processed this) →
  (prepare pushRef_leaves past_end this).1 = PortFull
  ∧ outputs (prepare pushRef_leaves past_end this).2 !! pos
    = Some (pushRef output (output_chunks this !!! pos))
  ∧ was_output_processed (prepare pushRef_leaves past_end this).2 !! S pos
    = Some true.
Proof.
  intros Hphase Hlook Hskip Hpush Hlt. unfold prepare. rewrite Hphase.
  rewrite prepareGenerate_unfold. cbn zeta.
  destruct (loop_flags past_end (outputs this)
              (GenerateLoop_start this)) as [Hfull _].
  cbn in Hfull. rewrite (proj2 Hfull) by (right; by exists pos, output).
  cbn. split_and!; [done| |].
  - rewrite (loop_outputs past_end (outputs this) (GenerateLoop_start this)
               pos output Hlook).
    cbn. by rewrite Hskip, Hpush.
  - by apply (loop_marks_pushed past_end (outputs this)
                (GenerateLoop_start this) pos output).
Qed.

(** C6 (as amended): in a Generating-phase call of [prepare] that passes over
    every output (its entry reads as processed, or its sub-batch is empty, or
    the port is finished), the stage goes back to Consuming and the call
    returns what the Consuming rules give on the unchanged members.  In a call
    with a pending sub-batch the status is [PortFull]; when every pending
    sub-batch is pushed during the call the stage is back in Consuming, and
    the Consuming rules are evaluated by the next call. *)
Theorem prepareGenerate_drained (past_end : bool) this :
  let skip pos output :=
    skipped past_end (was_output_processed this) (output_chunks this) pos output in
  is_generating_phase this = true →
  ((∀ pos output, outputs this !! pos = Some output → skip pos output = true) →
   prepare pushRef_leaves past_end this = prepareConsume (consuming this))
  ∧ ((∃ pos output, outputs this !! pos = Some output ∧ skip pos output = false) →
     (prepare pushRef_leaves past_end this).1 = PortFull
     ∧ ((∀ pos output, outputs this !! pos = Some output →
           skip pos output = false → canPush output = true) →
        is_generating_phase (prepare pushRef_leaves past_end this).2 = false)).
Proof.
  intros skip Hphase. unfold prepare. rewrite Hphase.
  destruct (loop_flags past_end (outputs this) (GenerateLoop_start this))
    as [Hfull Hall]. cbn in Hfull, Hall.
  split.
  - intros Hskip. apply prepareGenerate_quiet.
    destruct (has_full_ports _) eqn:Hf; [|done].
    destruct (proj1 Hfull eq_refl) as [?|(pos & output & Hlook & Hs)]; [done|].
    unfold skip in Hskip. rewrite (Hskip pos output Hlook) in Hs. done.
  - intros Hpending. rewrite prepareGenerate_unfold. cbn zeta.
    rewrite (proj2 Hfull) by (by right). cbn. split; [done|].
    intros Hpush. by rewrite (proj2 Hall).
Qed.

(** C5 (the defect): a Generating-phase call of [prepareGenerate] on a stage
    with at least one output, whose table has one entry per output as [work]
    leaves it, reads [was_output_processed] at the index equal to the size of
    the table, where the table has no entry; the indices it uses run from 1
    to that size. *)
Theorem prepareGenerate_reads_past_the_table (past_end : bool) this :
  outputs this ≠ [] →
  length (was_output_processed this) = length (outputs this) →
  TableRead (length (was_output_processed this))
    ∈ prepareGenerate_accesses pushRef_leaves past_end this
  ∧ was_output_processed this !! length (was_output_processed this) = None
  ∧ ∀ a, a ∈ prepareGenerate_accesses pushRef_leaves past_end this →
         1 ≤ TableAccess_index a ≤ length (was_output_processed this).
Proof.
  intros Hne Hlen. unfold prepareGenerate_accesses. split_and!.
  - destruct (outputs this) as [|output rest] eqn:Houtputs; [done|].
    pose proof (loop_accesses past_end (output :: rest) (GenerateLoop_start this)
                  (length rest)) as Hread.
    cbn [length chunk_number GenerateLoop_start] in Hread, Hlen.
    rewrite Hlen. apply Hread. lia.
  - by apply lookup_ge_None.
  - intros a Ha. apply loop_accesses_range in Ha as [Ha|Ha].
    + cbn in Ha. by apply elem_of_nil in Ha.
    + cbn in Ha. lia.
Qed.

(** *** Termination *)

Lemma prepareConsume_all_finished this :
  Forall (λ output, out_isFinished output = true) (outputs this) →
  prepareConsume this = (Finished, input_closed this).
Proof.
  intros Hall. unfold prepareConsume.
  by rewrite prepareConsume_outputs_finished.
Qed.

Lemma prepareConsume_input_finished this :
  ¬ Forall (λ output, out_isFinished output = true) (outputs this) →
  Forall (λ output, out_isFinished output = true ∨ canPush output = true)
         (outputs this) →
  in_isFinished (input this) = true →
  prepareConsume this = (Finished, outputs_finished this).
Proof.
  intros Hnot Hready Hin. unfold prepareConsume.
  by rewrite prepareConsume_outputs_ready, Hin.
Qed.

Lemma prepareConsume_Finished this this' :
  prepareConsume this = (Finished, this') →
  (Forall (λ output, out_isFinished output = true) (outputs this)
   ∧ this' = input_closed this)
  ∨ (in_isFinished (input this) = true ∧ this' = outputs_finished this).
Proof.
  unfold prepareConsume.
  destruct (prepareConsume_outputs (outputs this) true) as [[]|] eqn:Hloop.
  - intros [= <-]. left. split; [|done].
    by apply prepareConsume_outputs_true in Hloop as [_ ?].
  - destruct (in_isFinished (input this)) eqn:Hin.
    + intros [= <-]. by right.
    + destruct (hasData _); cbn; done.
  - done.
Qed.

Lemma Forall_finished_finish outputs :
  Forall (λ output, out_isFinished output = true) (finish <$> outputs).
Proof. apply Forall_fmap, Forall_forall. by intros output _. Qed.

(** C7 (as amended): in the Consuming phase, when every output port is
    finished [prepare] closes the input and returns [Finished]; when not
    every output is finished, every unfinished output can take a push and the
    input port is finished, [prepare] finishes every output and returns
    [Finished]; a call of [prepare] in any phase returns [Finished] through
    one of these two checks only, and then leaves the stage in Consuming with
    every output finished and the input closed or finished; from a stage
    whose outputs are all finished every later call returns [Finished] again
    and leaves the output ports as they are. *)
Theorem prepare_termination (past_end : bool) this :
  (is_generating_phase this = false →
   Forall (λ output, out_isFinished output = true) (outputs this) →
   prepare pushRef_leaves past_end this = (Finished, input_closed this))
  ∧ (is_generating_phase this = false →
     ¬ Forall (λ output, out_isFinished output = true) (outputs this) →
     Forall (λ output, out_isFinished output = true ∨ canPush output = true)
            (outputs this) →
     in_isFinished (input this) = true →
     prepare pushRef_leaves past_end this = (Finished, outputs_finished this))
  ∧ (∀ this', prepare pushRef_leaves past_end this = (Finished, this') →
       ((Forall (λ output, out_isFinished output = true) (outputs this)
         ∧ this' = input_closed (consuming this))
        ∨ (in_isFinished (input this) = true
           ∧ this' = outputs_finished (consuming this)))
       ∧ is_generating_phase this' = false
       ∧ Forall (λ output, out_isFinished output = true) (outputs this')
       ∧ (in_closed (input this') = true ∨ in_isFinished (input this') = true))
  ∧ (Forall (λ output, out_isFinished output = true) (outputs this) →
     prepare pushRef_leaves past_end this = (Finished, input_closed (consuming this))
     ∧ outputs (input_closed (consuming this)) = outputs this).
Proof.
  assert (is_generating_phase this = false → consuming this = this) as Hsame.
  { intros Hphase. destruct this. cbn in *. by subst. }
  assert (Forall (λ output, out_isFinished output = true) (outputs this) →
          prepare pushRef_leaves past_end this
          = (Finished, input_closed (consuming this))) as Hdone.
  { intros Hall. unfold prepare.
    destruct (is_generating_phase this) eqn:Hphase.
    - rewrite prepareGenerate_quiet; [by apply prepareConsume_all_finished|].
      destruct (loop_flags past_end (outputs this) (GenerateLoop_start this))
        as [Hfull _]. cbn in Hfull.
      destruct (has_full_ports _) eqn:Hf; [|done].
      destruct (proj1 Hfull eq_refl) as [?|(pos & output & Hlook & Hs)]; [done|].
      eapply Forall_lookup_1 in Hall; [|exact Hlook]. cbn in Hall.
      unfold skipped in Hs. rewrite Hall in Hs.
      by rewrite !orb_true_r in Hs.
    - rewrite Hsame by done. by apply prepareConsume_all_finished. }
  split_and!.
  - intros Hphase Hall. rewrite Hdone by done. by rewrite Hsame.
  - intros Hphase Hnot Hready Hin. unfold prepare. rewrite Hphase.
    by apply prepareConsume_input_finished.
  - intros this' Hrun.
    assert (prepareConsume (consuming this) = (Finished, this')) as Hconsume.
    { unfold prepare in Hrun. destruct (is_generating_phase this) eqn:Hphase.
      - rewrite prepareGenerate_unfold in Hrun. cbn zeta in Hrun.
        destruct (has_full_ports _) eqn:Hf; [done|].
        rewrite <- (prepareGenerate_quiet past_end this Hf).
        rewrite prepareGenerate_unfold. cbn zeta. by rewrite Hf.
      - by rewrite Hsame. }
    apply prepareConsume_Finished in Hconsume as [[Hall ->]|[Hin ->]].
    + split_and!; [by left|done|done|by left].
    + split_and!; [by right|done|apply Forall_finished_finish|by right].
  - intros Hall. by rewrite Hdone.
Qed.

(** *** work *)

(** C8: [work] throws [LOGICAL_ERROR] when the attachment of the pulled chunk
    is missing or of another type, and when it carries a number of sub-batches
    other than the number of outputs; in both cases no port is touched, the
    table is left as it was, and the sub-batches are neither cut nor padded.
    Otherwise the sub-batches are swapped with the working set and the table
    gets one false entry per output. *)
Theorem work_spec this :
  (typeid_cast_ChunkInfoWithChunks (getChunkInfo (input_chunk this)) = None →
   work this = (this, Throw LOGICAL_ERROR))
  ∧ (∀ chunks,
       typeid_cast_ChunkInfoWithChunks (getChunkInfo (input_chunk this)) = Some chunks →
       length chunks ≠ length (outputs this) →
       (work this).2 = Throw LOGICAL_ERROR
       ∧ outputs (work this).1 = outputs this
       ∧ input (work this).1 = input this
       ∧ output_chunks (work this).1 = chunks
       ∧ was_output_processed (work this).1 = was_output_processed this)
  ∧ (∀ chunks,
       typeid_cast_ChunkInfoWithChunks (getChunkInfo (input_chunk this)) = Some chunks →
       length chunks = length (outputs this) →
       (work this).2 = Ok ()
       ∧ outputs (work this).1 = outputs this
       ∧ input (work this).1 = input this
       ∧ output_chunks (work this).1 = chunks
       ∧ getChunkInfo (input_chunk (work this).1)
         = Some (ChunkInfoWithChunks (output_chunks this))
       ∧ was_output_processed (work this).1
         = replicate (length (outputs this)) false
       ∧ is_generating_phase (work this).1 = is_generating_phase this).
Proof.
  unfold work. split_and!.
  - by intros ->.
  - intros chunks -> Hne. cbn. by rewrite decide_True.
  - intros chunks -> Heq. cbn. rewrite decide_False by (by intros ?).
    cbn. by rewrite Heq.
Qed.


(** *** The constructors *)

(** C9: the constructor of the splitting transform throws exactly when the
    number of outputs is below 2, or the set of key columns is empty, or some
    key column is not below the number of columns of the header; the
    constructor of the resizing transform throws exactly when the number of
    outputs is below 2.  A constructor that throws yields no stage; otherwise
    it yields the stage as configured. *)
Theorem constructors_fail_exactly (header : Block) (N : Z) (keys : list nat) :
  let misconfigured :=
    (N < 2)%Z ∨ keys = [] ∨ Exists (λ column, columns header ≤ column) keys in
  (SplittingByHashTransform_new header N keys = Throw LOGICAL_ERROR
   ↔ misconfigured)
  ∧ (SplittingByHashTransform_new header N keys
     = Ok {| num_outputs := N; key_columns := keys; hash := []; selector := [] |}
     ↔ ¬ misconfigured)
  ∧ (ResizeByHashTransform_new (Field:=Field) header N = Throw LOGICAL_ERROR
     ↔ (N < 2)%Z)
  ∧ ((∃ this, ResizeByHashTransform_new (Field:=Field) header N = Ok this
              ∧ length (outputs this) = Z.to_nat N
              ∧ is_generating_phase this = false)
     ↔ ¬ (N < 2)%Z).
Proof.
  assert (∀ keys', check_key_columns header keys' = Throw LOGICAL_ERROR
                   ↔ Exists (λ column, columns header ≤ column) keys') as Hthrow.
  { induction keys' as [|column rest IH]; cbn.
    - split; [done|]. by intros ?%Exists_nil.
    - rewrite Exists_cons. case_decide; [by split; auto|].
      rewrite IH. split; [by right|]. by intros [?|?]. }
  assert (∀ keys', check_key_columns header keys' = Ok ()
                   ↔ ¬ Exists (λ column, columns header ≤ column) keys') as Hok.
  { intros keys'. rewrite <- Hthrow.
    destruct (check_key_columns header keys') as [[]|[]]; by split. }
  cbn zeta. unfold SplittingByHashTransform_new, ResizeByHashTransform_new. cbn.
  split_and!.
  - case_decide; [split; [left; lia|done]|].
    case_decide; [split; [by right; left|done]|].
    destruct (check_key_columns header keys) as [[]|[]] eqn:Hcheck; cbn.
    + split; [done|]. intros [?|[?|Hbad]]; [lia|done|].
      apply Hthrow in Hbad. congruence.
    + split; [|done]. intros _. right; right. by apply Hthrow.
  - case_decide; [split; [done|intros Hgood; destruct Hgood; left; lia]|].
    case_decide; [split; [done|intros Hgood; destruct Hgood; by right; left]|].
    destruct (check_key_columns header keys) as [[]|[]] eqn:Hcheck; cbn.
    + split; [|done]. intros _ [?|[?|Hbad]]; [lia|done|].
      apply Hthrow in Hbad. congruence.
    + split; [done|]. intros Hgood. destruct Hgood. right; right.
      by apply Hthrow.
  - case_decide; split; try done; lia.
  - case_decide; split.
    + by intros (? & ? & _).
    + lia.
    + lia.
    + intros _. eexists. split; [done|]. cbn. by rewrite length_replicate.
Qed.

End FanOutProofs.

(** *** What the two loops leave alone *)

Section FanOutLoops.
Context {Field : Type}.
Variable pushRef_leaves : Chunk Field → Chunk Field.

Implicit Types (this : ResizeByHashTransform Field) (output : OutputPort Field)
  (outputs : list (OutputPort Field)) (l : GenerateLoop Field).

Lemma prepareConsume_members this :
  output_chunks (prepareConsume this).2 = output_chunks this
  ∧ was_output_processed (prepareConsume this).2 = was_output_processed this
  ∧ length (outputs (prepareConsume this).2) = length (outputs this).
Proof.
  unfold prepareConsume.
  destruct (prepareConsume_outputs (outputs this) true) as [[]|]; cbn; [done| |done].
  destruct (in_isFinished (input this)); cbn; [by rewrite length_fmap|].
  destruct (hasData _); cbn; done.
Qed.

Lemma loop_lengths past_end outputs : ∀ l,
  let r := prepareGenerate_loop pushRef_leaves past_end outputs l in
  length r.1 = length outputs
  ∧ length (loop_output_chunks r.2) = length (loop_output_chunks l)
  ∧ length (loop_was_output_processed r.2) = length (loop_was_output_processed l).
Proof.
  induction outputs as [|output outputs IH]; intros l; [done|].
  cbn zeta. rewrite loop_cons. cbn [fst snd length].
  destruct (IH (prepareGenerate_body pushRef_leaves past_end output l).2)
    as (H1 & H2 & H3).
  destruct (body_frame pushRef_leaves past_end output l) as (_ & H4 & H5 & _).
  rewrite H1, H2, H3. done.
Qed.

(** The loop changes a slot of the working set only when it pushes the
    sub-batch of that slot. *)
Lemma loop_chunk_kept past_end outputs : ∀ l (slot : nat),
  (∀ pos output, outputs !! pos = Some output → chunk_number l + pos = slot →
     skipped past_end (loop_was_output_processed l) (loop_output_chunks l)
             slot output = true
     ∨ canPush output = false) →
  loop_output_chunks (prepareGenerate_loop pushRef_leaves past_end outputs l).2
    !! slot
  = loop_output_chunks l !! slot.
Proof.
  induction outputs as [|output0 outputs IH]; intros l slot Hkept; [done|].
  rewrite loop_cons. cbn [snd].
  destruct (body_frame pushRef_leaves past_end output0 l) as (Hnum & _).
  rewrite IH.
  - destruct (decide (chunk_number l = slot)) as [<-|Hne].
    + destruct (Hkept 0 output0 eq_refl) as [Hskip|Hpush]; [lia|..].
      * by rewrite body_skipped.
      * destruct (skipped past_end (loop_was_output_processed l)
                    (loop_output_chunks l) (chunk_number l) output0) eqn:Hskip.
        -- by rewrite body_skipped.
        -- rewrite body_pending by done. by rewrite Hpush.
    + unfold prepareGenerate_body.
      repeat (match goal with |- context [if ?b then _ else _] => destruct b end);
        cbn; try done.
      by rewrite list_lookup_insert_ne.
  - intros pos output Hlook Hslot. rewrite Hnum in Hslot.
    destruct (Hkept (S pos) output Hlook) as [Hskip|Hpush]; [lia| |by right].
    left. replace slot with (chunk_number l + S pos) in Hskip by lia.
    replace slot
      with (chunk_number (prepareGenerate_body pushRef_leaves past_end output0 l).2
            + pos) by lia.
    by rewrite skipped_shift.
Qed.

End FanOutLoops.

(** *** Calls of [prepare] in a row *)

Lemma past_end_after_set table accesses :
  past_end_after table accesses true = true.
Proof.
  unfold past_end_after. induction accesses as [|[index|index] accesses IH]; cbn;
    [done|done|].
  unfold past_end_write. by destruct (decide _).
Qed.

Lemma past_end_after_app table accesses accesses' past_end :
  past_end_after table (accesses ++ accesses') past_end
  = past_end_after table accesses' (past_end_after table accesses past_end).
Proof. unfold past_end_after. by rewrite foldl_app. Qed.

(** A store through an index outside the table sets the memory after it. *)
Lemma past_end_after_write table accesses past_end index :
  TableWrite index ∈ accesses →
  length table ≤ index →
  past_end_after table accesses past_end = true.
Proof.
  intros (before & after & ->)%list_elem_of_split Hout.
  rewrite past_end_after_app.
  change (TableWrite index :: after) with ([TableWrite index] ++ after).
  rewrite past_end_after_app.
  assert (past_end_after table [TableWrite index]
            (past_end_after table before past_end) = true) as ->.
  { cbn. unfold past_end_write. by rewrite decide_False by lia. }
  apply past_end_after_set.
Qed.

Section FanOutCalls.
Context {Field : Type}.
Variable pushRef_leaves : Chunk Field → Chunk Field.

Implicit Types (this : ResizeByHashTransform Field) (output : OutputPort Field)
  (outputs : list (OutputPort Field)) (l : GenerateLoop Field)
  (m : InMemory Field).

Local Abbreviation loop := (prepareGenerate_loop pushRef_leaves).
Local Abbreviation body := (prepareGenerate_body pushRef_leaves).

Lemma loop_accesses_kept past_end outputs : ∀ l a,
  a ∈ table_accesses l → a ∈ table_accesses (loop past_end outputs l).2.
Proof.
  induction outputs as [|output outputs IH]; intros l a Ha; [exact Ha|].
  rewrite loop_cons. cbn [snd]. apply IH.
  unfold prepareGenerate_body.
  repeat (match goal with |- context [if ?b then _ else _] => destruct b end);
    cbn; rewrite ?elem_of_app, ?list_elem_of_singleton; auto.
Qed.

(** A push is followed by the store through the index the turn has read. *)
Lemma loop_logs_store past_end outputs : ∀ l pos output,
  outputs !! pos = Some output →
  skipped past_end (loop_was_output_processed l) (loop_output_chunks l)
          (chunk_number l + pos) output = false →
  canPush output = true →
  TableWrite (S (chunk_number l + pos))
  ∈ table_accesses (loop past_end outputs l).2.
Proof.
  induction outputs as [|output0 outputs IH];
    intros l pos output Hlook Hskip Hpush; [done|].
  rewrite loop_cons. cbn [snd].
  destruct pos as [|pos]; cbn in Hlook.
  - injection Hlook as ->. rewrite Nat.add_0_r in *.
    apply loop_accesses_kept. rewrite body_pending, Hpush by done. cbn.
    rewrite !elem_of_app, !list_elem_of_singleton. by right.
  - destruct (body_frame pushRef_leaves past_end output0 l) as (Hnum & _).
    replace (S (chunk_number l + S pos))
      with (S (chunk_number (body past_end output0 l).2 + pos)) by lia.
    apply (IH _ pos output Hlook); [|done].
    by rewrite skipped_shift.
Qed.

(** The flag of an output is set once the loop has pushed its sub-batch,
    whether the entry is inside the table or right after it. *)
Lemma prepareGenerate_sets_flag past_end this pos output :
  outputs this !! pos = Some output →
  skipped past_end (was_output_processed this) (output_chunks this) pos output
  = false →
  canPush output = true →
  table_read
    (loop_was_output_processed
       (loop past_end (outputs this) (GenerateLoop_start this)).2)
    (S pos)
    (past_end_after (was_output_processed this)
       (prepareGenerate_accesses pushRef_leaves past_end this) past_end)
  = true.
Proof.
  intros Hlook Hskip Hpush. unfold table_read.
  destruct (loop_lengths pushRef_leaves past_end (outputs this)
              (GenerateLoop_start this)) as (_ & _ & Hlen).
  cbn in Hlen.
  destruct (decide (S pos < length (was_output_processed this))) as [Hlt|Hge].
  - pose proof (loop_marks_pushed pushRef_leaves past_end (outputs this)
                  (GenerateLoop_start this) pos output Hlook Hskip Hpush Hlt)
      as Hset.
    cbn in Hset. by rewrite Hset.
  - rewrite (lookup_ge_None_2 _ (S pos)) by lia. cbn.
    apply past_end_after_write with (index := S pos); [|lia].
    by apply (loop_logs_store past_end (outputs this)
                (GenerateLoop_start this) pos output).
Qed.

(** One call, seen from one output. *)
Lemma prepare_in_memory_at_output m pos output :
  outputs (stage m) !! pos = Some output →
  let m' := (prepare_in_memory pushRef_leaves m).2 in
  ∃ output',
    outputs (stage m') !! pos = Some output'
    ∧ length (was_output_processed (stage m'))
      = length (was_output_processed (stage m))
    ∧ length (outputs (stage m')) = length (outputs (stage m))
    ∧ (processed_flag m pos = true → processed_flag m' pos = true)
    ∧ ((out_pushed output' = out_pushed output
        ∧ output_chunks (stage m') !! pos = output_chunks (stage m) !! pos)
       ∨ (out_pushed output'
          = out_pushed output ++ [output_chunks (stage m) !!! pos]
          ∧ processed_flag m pos = false
          ∧ processed_flag m' pos = true)).
Proof.
  destruct m as [this past_end]. cbn [stage past_the_table]. intros Hlook.
  cbn zeta. unfold processed_flag, prepare_in_memory.
  cbn [stage past_the_table fst snd].
  assert (∀ (that : ResizeByHashTransform Field) (past_end' : bool),
            outputs that = outputs this →
            output_chunks that = output_chunks this →
            was_output_processed that = was_output_processed this →
            (past_end = true → past_end' = true) →
            ∃ output',
              outputs (prepareConsume that).2 !! pos = Some output'
              ∧ length (was_output_processed (prepareConsume that).2)
                = length (was_output_processed this)
              ∧ length (outputs (prepareConsume that).2) = length (outputs this)
              ∧ (table_read (was_output_processed this) (S pos) past_end = true →
                 table_read (was_output_processed (prepareConsume that).2)
                            (S pos) past_end' = true)
              ∧ ((out_pushed output' = out_pushed output
                  ∧ output_chunks (prepareConsume that).2 !! pos
                    = output_chunks this !! pos)
                 ∨ (out_pushed output'
                    = out_pushed output ++ [output_chunks this !!! pos]
                    ∧ table_read (was_output_processed this) (S pos) past_end
                      = false
                    ∧ table_read (was_output_processed (prepareConsume that).2)
                                 (S pos) past_end' = true))) as Hconsume.
  { intros that past_end' Ho Hc Ht Hmono.
    destruct (prepareConsume_keeps_pushed that pos output) as (output' & H1 & H2);
      [by rewrite Ho|].
    destruct (prepareConsume_members that) as (-> & -> & ->).
    exists output'. rewrite Hc, Ht, Ho. split_and!; [done..| |by left].
    unfold table_read. destruct (was_output_processed this !! S pos); cbn; auto. }
  unfold prepare. destruct (is_generating_phase this) eqn:Hphase;
    [|by apply Hconsume].
  assert (past_end = true →
          past_end_after (was_output_processed this)
            (prepareGenerate_accesses pushRef_leaves past_end this) past_end
          = true) as Hmono.
  { intros ->. apply past_end_after_set. }
  rewrite prepareGenerate_unfold. cbn zeta.
  destruct (has_full_ports _) eqn:Hfull.
  - cbn [fst snd prepareGenerate_after outputs was_output_processed output_chunks].
    destruct (loop_lengths pushRef_leaves past_end (outputs this)
                (GenerateLoop_start this)) as (Hlen_outputs & _ & Hlen).
    cbn in Hlen.
    rewrite (loop_outputs pushRef_leaves past_end (outputs this)
               (GenerateLoop_start this) pos output Hlook). cbn.
    assert (table_read (was_output_processed this) (S pos) past_end = true →
            table_read
              (loop_was_output_processed
                 (loop past_end (outputs this) (GenerateLoop_start this)).2)
              (S pos)
              (past_end_after (was_output_processed this)
                 (prepareGenerate_accesses pushRef_leaves past_end this) past_end)
            = true) as Hkept.
    { unfold table_read.
      destruct (was_output_processed this !! S pos) as [b|] eqn:Hb; cbn.
      - intros ->.
        by rewrite (loop_table_mono pushRef_leaves past_end (outputs this)
                      (GenerateLoop_start this) (S pos) Hb).
      - intros Hslot. apply lookup_ge_None in Hb.
        rewrite (lookup_ge_None_2 _ (S pos)) by lia. cbn. by apply Hmono. }
    eexists. split; [done|]. split; [done|]. split; [done|]. split; [done|].
    destruct (skipped past_end (was_output_processed this) (output_chunks this)
                pos output) eqn:Hskip; [|destruct (canPush output) eqn:Hpush].
    + left. split; [done|].
      apply (loop_chunk_kept pushRef_leaves past_end (outputs this)
               (GenerateLoop_start this) pos).
      intros pos' output' Hlook' Hpos'. cbn in Hpos'. subst pos'.
      rewrite Hlook in Hlook'. injection Hlook' as <-. by left.
    + right. split; [done|].
      assert (table_read (was_output_processed this) (S pos) past_end = false)
        as Hflag.
      { unfold skipped in Hskip.
        by apply orb_false_iff in Hskip as [[? _]%orb_false_iff _]. }
      split; [done|].
      by apply (prepareGenerate_sets_flag past_end this pos output).
    + left. split; [done|].
      apply (loop_chunk_kept pushRef_leaves past_end (outputs this)
               (GenerateLoop_start this) pos).
      intros pos' output' Hlook' Hpos'. cbn in Hpos'. subst pos'.
      rewrite Hlook in Hlook'. injection Hlook' as <-. by right.
  - destruct (loop_quiet pushRef_leaves past_end _ _ Hfull) as (H1 & H2 & H3 & _).
    apply Hconsume; cbn; done.
Qed.


End FanOutCalls.

(** ** The scenarios *)

Lemma scatter_ref_contract {A : Type} : scatter_contract (@scatter_ref A).
Proof. by intros column N selector _ _. Qed.

Lemma updateWeakHash32_ref_contract :
  updateWeakHash32_contract updateWeakHash32_ref.
Proof.
  intros column hash Hlen. unfold updateWeakHash32_ref. split_and!.
  - rewrite length_zip_with. lia.
  - intros _. apply Forall_forall. intros x Hx.
    apply list_elem_of_lookup in Hx as [i Hi].
    apply lookup_zip_with_Some in Hi as (value & h & -> & _ & _).
    unfold is_UInt32. apply Z.mod_pos_bound. lia.
  - intros r1 r2 _ _ Hcol Hhash. by rewrite !lookup_zip_with, Hcol, Hhash.
Qed.

Lemma example_fresh_constructed :
  ResizeByHashTransform_new example_header 2 = Ok example_fresh.
Proof. reflexivity. Qed.

Lemma example_splitter_configured : configured example_header example_splitter.
Proof.
  split_and!; [done|done|]. repeat constructor.
Qed.

Lemma example_input_ok : Chunk_ok example_input.
Proof. repeat constructor. Qed.

Lemma transform_row_conservation_witness :
  ∃ this' output_chunk' chunks,
    transform scatter_ref updateWeakHash32_ref UInt32_max
              example_splitter example_input Chunk_empty
    = Ok (this', output_chunk')
    ∧ getChunkInfo output_chunk' = Some (ChunkInfoWithChunks chunks)
    ∧ length chunks = 2
    ∧ sum_list (getNumRows <$> chunks) = 4.
Proof.
  destruct (transform_row_conservation scatter_ref updateWeakHash32_ref UInt32_max
              scatter_ref_contract updateWeakHash32_ref_contract
              ltac:(unfold is_UInt32, UInt32_max; lia)
              example_header example_splitter example_input Chunk_empty
              example_splitter_configured example_input_ok eq_refl
              ltac:(discriminate))
    as (this' & output' & chunks & Hrun & Hinfo & Hlen & Hsum & _).
  by exists this', output', chunks.
Defined.

Lemma transform_stable_witness :
  ∃ this' output_chunk' chunks,
    transform scatter_ref updateWeakHash32_ref UInt32_max
              example_splitter example_input Chunk_empty
    = Ok (this', output_chunk')
    ∧ getChunkInfo output_chunk' = Some (ChunkInfoWithChunks chunks)
    ∧ length chunks = 2
    ∧ ∀ i, i < 2 →
        ∃ (chunk : Chunk Z) (rows : list nat),
          chunks !! i = Some chunk
          ∧ StronglySorted lt rows
          ∧ (∀ row, row ∈ rows ↔ selector this' !! row = Some (Z.of_nat i))
          ∧ getNumRows chunk = length rows
          ∧ ∀ c column,
              getColumns example_input !! c = Some column →
              ∃ column',
                getColumns chunk !! c = Some column'
                ∧ length column' = length rows
                ∧ ∀ k row, rows !! k = Some row → column' !! k = column !! row.
Proof.
  destruct (transform_stable scatter_ref updateWeakHash32_ref UInt32_max
              scatter_ref_contract updateWeakHash32_ref_contract
              ltac:(unfold is_UInt32, UInt32_max; lia)
              example_header example_splitter example_input Chunk_empty
              example_splitter_configured example_input_ok eq_refl
              ltac:(discriminate))
    as (this' & output' & chunks & Hrun & Hinfo & Hlen & _ & _ & Hstable).
  exists this', output', chunks. split_and!; [done..|].
  intros i Hi.
  destruct (Hstable i Hi)
    as (chunk & rows & Hchunk & Hsorted & Hmembers & Hrows & _ & _ & Hvalues).
  by exists chunk, rows.
Defined.

Lemma key_colocation_witness :
  ∃ h bucket,
    calculateWeakHash32 updateWeakHash32_ref UInt32_max example_input [0] !! 0
    = Some h
    ∧ calculateWeakHash32 updateWeakHash32_ref UInt32_max example_input [0] !! 2
      = Some h
    ∧ fillSelector
        (calculateWeakHash32 updateWeakHash32_ref UInt32_max example_input [0])
        2 [] !! 0 = Some bucket
    ∧ fillSelector
        (calculateWeakHash32 updateWeakHash32_ref UInt32_max example_input [0])
        2 [] !! 2 = Some bucket.
Proof.
  refine (key_colocation updateWeakHash32_ref UInt32_max
            updateWeakHash32_ref_contract
            example_header example_splitter example_input 0 2
            example_splitter_configured example_input_ok eq_refl _ _ _).
  - cbn. lia.
  - cbn. lia.
  - intros k column Hk Hcolumn. cbn in Hk.
    apply list_elem_of_singleton in Hk as ->.
    cbn in Hcolumn. by injection Hcolumn as <-.
Defined.

(** C5 (the defect, at the scenario): with two outputs and the table
    [false; false] that [work] has left, [prepareGenerate] reads index 2. *)
Lemma prepareGenerate_reads_past_the_table_witness :
  TableRead (length (was_output_processed (example_generating example_sub_batches)))
    ∈ prepareGenerate_accesses chunk_stays false
        (example_generating example_sub_batches)
  ∧ was_output_processed (example_generating example_sub_batches)
      !! length (was_output_processed (example_generating example_sub_batches))
    = None.
Proof.
  destruct (prepareGenerate_reads_past_the_table chunk_stays false
              (example_generating example_sub_batches))
    as (Hread & Hnone & _).
  - discriminate.
  - reflexivity.
  - by split.
Defined.

Lemma example_generating_accesses :
  was_output_processed (example_generating example_sub_batches) = [false; false]
  ∧ prepareGenerate_accesses chunk_stays false
      (example_generating example_sub_batches)
    = [TableRead 1; TableWrite 1; TableRead 2; TableWrite 2].
Proof. by vm_compute. Qed.

Lemma example_second_call_reached :
  prepare_calls chunk_stays example_blocked example_second_call.
Proof.
  unfold example_second_call.
  apply (prepare_calls_more chunk_stays example_blocked
           (prepare_in_memory chunk_stays example_blocked).2
           (consumers_set [false; true]
              (stage (prepare_in_memory chunk_stays example_blocked).2))).
  - apply (prepare_calls_more chunk_stays example_blocked example_blocked
             (stage example_blocked)).
    + apply prepare_calls_none.
    + unfold neighbours_step. split_and!; [done..|].
      vm_compute. repeat constructor.
  - unfold neighbours_step. split_and!; [done..|].
    vm_compute. repeat constructor.
Qed.


(** When the read past the table finds [true] at the first call on an
    envelope, the call passes over the last output, whose sub-batch was never
    pushed, and leaves Generating with the envelope counted as drained. *)
Lemma last_output_dropped :
  let this := example_generating example_sub_batches in
  let this' := (prepare chunk_stays true this).2 in
  (prepare chunk_stays true this).1 = PortFull
  ∧ is_generating_phase this' = false
  ∧ out_pushed <$> outputs this'
    = [[mkChunk [[10; 20; 10]; [1; 2; 3]]%Z 3 None]; []].
Proof. by vm_compute. Qed.

(** C6 (as stated) fails: the sub-batch of the first output is pushed during
    the call and the second is empty, so every output ends up delivered or
    skipped and the stage is back in Consuming, yet the call returns
    [PortFull], whatever the read past the table yields. *)
Lemma prepareGenerate_drained_counterexample :
  let this := example_generating [mkChunk [[10]]%Z 1 None; Chunk_empty] in
  is_generating_phase this = true
  ∧ (prepare chunk_stays false this).1 = PortFull
  ∧ (prepare chunk_stays true this).1 = PortFull
  ∧ is_generating_phase (prepare chunk_stays false this).2 = false
  ∧ is_generating_phase (prepare chunk_stays true this).2 = false
  ∧ out_pushed <$> outputs (prepare chunk_stays false this).2
    = [[mkChunk [[10]]%Z 1 None]; []].
Proof. by vm_compute. Qed.

Lemma prepareGenerate_drained_witness :
  (prepare chunk_stays false (example_generating [Chunk_empty; Chunk_empty])
   = prepareConsume (consuming (example_generating [Chunk_empty; Chunk_empty])))
  ∧ (prepare chunk_stays false (example_generating example_sub_batches)).1
    = PortFull
  ∧ is_generating_phase
      (prepare chunk_stays false (example_generating example_sub_batches)).2
    = false.
Proof.
  split.
  - apply (prepareGenerate_drained chunk_stays false
             (example_generating [Chunk_empty; Chunk_empty]) eq_refl).
    intros [|[|pos]] output; cbn; [by intros [= <-]..|done].
  - destruct (proj2 (prepareGenerate_drained chunk_stays false
                       (example_generating example_sub_batches) eq_refl))
      as [Hstatus Hphase].
    + by exists 0, {| out_finished := false; out_can_push := true;
                      out_pushed := [] |}.
    + split; [exact Hstatus|]. apply Hphase.
      intros [|[|pos]] output; cbn; [by intros [= <-]..|done].
Defined.

(** C7 (as stated) fails: the source is exhausted, no output is finished and
    the first consumer is not ready; [prepare] returns [PortFull] and finishes
    no output. *)
Lemma prepare_termination_counterexample :
  let this := consumers_set [false; true] example_exhausted in
  is_generating_phase this = false
  ∧ in_isFinished (input this) = true
  ∧ prepare chunk_stays false this = (PortFull, this)
  ∧ out_isFinished <$> outputs this = [false; false].
Proof. by vm_compute. Qed.

Lemma prepare_termination_witness :
  prepare chunk_stays false (outputs_finished example_exhausted)
  = (Finished, input_closed (outputs_finished example_exhausted))
  ∧ prepare chunk_stays false example_exhausted
    = (Finished, outputs_finished example_exhausted).
Proof.
  split.
  - apply (proj1 (prepare_termination chunk_stays false
                      (outputs_finished example_exhausted))).
    + reflexivity.
    + by repeat constructor.
  - apply (proj1 (proj2 (prepare_termination chunk_stays false example_exhausted))).
    + reflexivity.
    + intros Hall. by apply Forall_cons in Hall as [? _].
    + repeat constructor; by right.
    + reflexivity.
Defined.

Lemma work_spec_witness :
  (work (example_stage Chunk_empty) = (example_stage Chunk_empty, Throw LOGICAL_ERROR))
  ∧ (work (prepare chunk_stays false
             (example_stage (example_envelope [Chunk_empty]))).2).2
    = Throw LOGICAL_ERROR
  ∧ (work (prepare chunk_stays false
             (example_stage (example_envelope example_sub_batches))).2).2
    = Ok ()
  ∧ was_output_processed (example_generating example_sub_batches)
    = [false; false].
Proof.
  split_and!.
  - by apply (work_spec (example_stage Chunk_empty)).
  - by apply (proj1 (proj2 (work_spec
       (prepare chunk_stays false (example_stage (example_envelope [Chunk_empty]))).2))
       [Chunk_empty]).
  - by apply (proj2 (proj2 (work_spec
       (prepare chunk_stays false
          (example_stage (example_envelope example_sub_batches))).2))
       example_sub_batches).
  - by apply (proj2 (proj2 (work_spec
       (prepare chunk_stays false
          (example_stage (example_envelope example_sub_batches))).2))
       example_sub_batches).
Defined.

Lemma constructors_fail_exactly_witness :
  SplittingByHashTransform_new example_header 1 [0] = Throw LOGICAL_ERROR
  ∧ SplittingByHashTransform_new example_header 2 [0; 2] = Throw LOGICAL_ERROR
  ∧ SplittingByHashTransform_new example_header 2 [0] = Ok example_splitter
  ∧ ResizeByHashTransform_new (Field:=Z) example_header 1 = Throw LOGICAL_ERROR.
Proof.
  split_and!.
  - apply (constructors_fail_exactly (Field:=Z) example_header 1 [0]).
    left. lia.
  - apply (constructors_fail_exactly (Field:=Z) example_header 2 [0; 2]).
    right; right. apply Exists_cons_tl, Exists_cons_hd. cbn. lia.
  - apply (constructors_fail_exactly (Field:=Z) example_header 2 [0]).
    intros [?|[?|Hbad]]; [lia|done|].
    apply Exists_cons in Hbad as [Hbad|Hbad%Exists_nil]; [cbn in Hbad; lia|done].
  - apply (constructors_fail_exactly (Field:=Z) example_header 1 [0]). lia.
Defined.

(** ** Further properties of the partition step *)

(** *** The range mapping of [fillSelector] *)

(** X1: [fillSelector] resizes the selector to the number of rows of the hash
    buffer and rewrites every entry: the result has one entry per row and
    does not depend on what the selector held before. *)
Theorem fillSelector_overwrites (hash : WeakHash32) (N : Z)
    (selector1 selector2 : Selector) :
  length (fillSelector hash N selector1) = length hash
  ∧ fillSelector hash N selector1 = fillSelector hash N selector2.
Proof.
  split; [apply fillSelector_length|]. by rewrite !fillSelector_map.
Qed.

(** X2: for every number of outputs [N >= 1], also one above [2^32] for which
    the 64-bit product wraps, every entry that [fillSelector] computes from
    32-bit hash values is a bucket index below [N]. *)
Theorem fillSelector_in_range (hash : WeakHash32) (N : Z) (selector : Selector) :
  Forall is_UInt32 hash → (1 ≤ N)%Z →
  Forall (λ s, 0 ≤ s < N)%Z (fillSelector hash N selector).
Proof.
  intros Hhash HN. rewrite fillSelector_map. apply Forall_fmap.
  eapply Forall_impl; [exact Hhash|]. intros h Hh. cbn.
  apply bucket_of_range; [exact Hh|exact HN].
Qed.

Lemma fillSelector_in_range_witness :
  Forall (λ s, 0 ≤ s < 2 ^ 33)%Z
         (fillSelector [2 ^ 31; UInt32_max]%Z (2 ^ 33) [7]%Z).
Proof.
  apply fillSelector_in_range.
  - unfold is_UInt32, UInt32_max. repeat constructor; lia.
  - lia.
Defined.

Lemma bucket_of_interval h N i :
  is_UInt32 h → (1 ≤ N ≤ 2 ^ 32)%Z →
  bucket_of h N = i ↔ (i * 2 ^ 32 ≤ h * N < (i + 1) * 2 ^ 32)%Z.
Proof.
  intros Hh HN. rewrite bucket_of_floor by (done || lia).
  pose proof (Z.div_mod (h * N) (2 ^ 32) ltac:(lia)) as Hdiv.
  pose proof (Z.mod_pos_bound (h * N) (2 ^ 32) ltac:(lia)) as Hmod.
  split; [intros <-; lia|]. intros Hi. nia.
Qed.

(** X3: for [1 <= N <= 2^32], the row of a 32-bit hash value [h] gets bucket
    [i] exactly when [i * 2^32 <= h * N < (i + 1) * 2^32]: bucket [i] owns the
    hash values from [ceil (i * 2^32 / N)] up to, and not including,
    [ceil ((i + 1) * 2^32 / N)]. *)
Theorem fillSelector_bucket_interval (hash : WeakHash32) (N : Z)
    (selector : Selector) (row : nat) (h i : Z) :
  is_UInt32 h → (1 ≤ N ≤ 2 ^ 32)%Z → hash !! row = Some h →
  fillSelector hash N selector !! row = Some i
  ↔ (i * 2 ^ 32 ≤ h * N < (i + 1) * 2 ^ 32)%Z.
Proof.
  intros Hh HN Hrow. rewrite (fillSelector_lookup hash N selector row h Hrow).
  rewrite <- (bucket_of_interval h N i Hh HN). split; [by intros [= ->]|by intros ->].
Qed.

Lemma fillSelector_bucket_interval_witness :
  fillSelector [1431655765; 1431655766]%Z 3 [] !! 1 = Some 1%Z
  ↔ (1 * 2 ^ 32 ≤ 1431655766 * 3 < (1 + 1) * 2 ^ 32)%Z.
Proof.
  apply (fillSelector_bucket_interval _ 3 [] 1 1431655766 1).
  - unfold is_UInt32. lia.
  - lia.
  - reflexivity.
Defined.

(** X4: for [N <= 2^32] the mapping keeps the order of the hash values: a row
    with a larger hash value never gets a smaller bucket index. *)
Theorem fillSelector_monotone (hash : WeakHash32) (N : Z) (selector : Selector)
    (row1 row2 : nat) (h1 h2 b1 b2 : Z) :
  is_UInt32 h1 → is_UInt32 h2 → (0 ≤ N ≤ 2 ^ 32)%Z →
  hash !! row1 = Some h1 → hash !! row2 = Some h2 → (h1 ≤ h2)%Z →
  fillSelector hash N selector !! row1 = Some b1 →
  fillSelector hash N selector !! row2 = Some b2 →
  (b1 ≤ b2)%Z.
Proof.
  intros Hh1 Hh2 HN Hrow1 Hrow2 Hle.
  rewrite (fillSelector_lookup hash N selector row1 h1 Hrow1).
  rewrite (fillSelector_lookup hash N selector row2 h2 Hrow2).
  intros [= <-] [= <-]. rewrite !bucket_of_floor by done.
  apply Z.div_le_mono; [lia|]. unfold is_UInt32 in *. nia.
Qed.

Lemma fillSelector_monotone_witness : (0 ≤ 2)%Z.
Proof.
  apply (fillSelector_monotone [5; 4294967295]%Z 3 [] 0 1 5 4294967295 0 2).
  - unfold is_UInt32. lia.
  - unfold is_UInt32. lia.
  - lia.
  - reflexivity.
  - reflexivity.
  - lia.
  - reflexivity.
  - reflexivity.
Defined.

(** X5: for [1 <= N <= 2^32] no bucket is left without hash values: for every
    bucket index [i] below [N] the 32-bit value [ceil (i * 2^32 / N)] is
    mapped to [i]. *)
Theorem fillSelector_every_bucket (N i : Z) (selector : Selector) :
  (1 ≤ N ≤ 2 ^ 32)%Z → (0 ≤ i < N)%Z →
  let h := ((i * 2 ^ 32 + N - 1) / N)%Z in
  is_UInt32 h ∧ fillSelector [h] N selector = [i].
Proof.
  intros HN Hi h.
  pose proof (Z.div_mod (i * 2 ^ 32 + N - 1) N ltac:(lia)) as Hdiv.
  pose proof (Z.mod_pos_bound (i * 2 ^ 32 + N - 1) N ltac:(lia)) as Hmod.
  fold h in Hdiv.
  assert (is_UInt32 h) as Hh.
  { unfold is_UInt32. split; [apply Z.div_pos; lia|].
    apply Z.div_lt_upper_bound; [lia|]. nia. }
  split; [done|]. rewrite fillSelector_map. cbn. f_equal.
  apply bucket_of_interval; [done..|]. nia.
Qed.

Lemma fillSelector_every_bucket_witness :
  is_UInt32 ((2 * 2 ^ 32 + 3 - 1) / 3)
  ∧ fillSelector [((2 * 2 ^ 32 + 3 - 1) / 3)%Z] 3 [] = [2%Z].
Proof. apply (fillSelector_every_bucket 3 2 []); lia. Defined.

(** X6: the hash value [floor (2^32 / N)], for [2 <= N <= 2^32], is the
    first value of bucket 1 when [N] divides [2^32], and still belongs to
    bucket 0 otherwise. *)
Theorem fillSelector_boundary (N : Z) (selector : Selector) :
  (2 ≤ N ≤ 2 ^ 32)%Z →
  fillSelector [2 ^ 32 / N]%Z N selector
  = [if decide (2 ^ 32 `mod` N = 0)%Z then 1%Z else 0%Z].
Proof.
  intros HN.
  pose proof (Z.div_mod (2 ^ 32) N ltac:(lia)) as Hdiv.
  pose proof (Z.mod_pos_bound (2 ^ 32) N ltac:(lia)) as Hmod.
  assert (is_UInt32 (2 ^ 32 / N)) as Hh.
  { unfold is_UInt32. split; [apply Z.div_pos; lia|].
    apply Z.div_lt_upper_bound; lia. }
  rewrite fillSelector_map. cbn [fmap list_fmap]. f_equal.
  apply bucket_of_interval; [done|lia|].
  case_decide; nia.
Qed.

Lemma fillSelector_boundary_witness :
  fillSelector [2 ^ 32 / 3]%Z 3 [] = [0%Z]
  ∧ fillSelector [2 ^ 32 / 4]%Z 4 [] = [1%Z].
Proof.
  split.
  - apply (fillSelector_boundary 3 []). lia.
  - apply (fillSelector_boundary 4 []). lia.
Defined.

Section PartitionFurther.
Context {Field : Type}.
Variable scatter : list Field → Z → list Z → list (list Field).
Variable updateWeakHash32 : list Field → list Z → list Z.
Variable hash_init : Z.
Hypothesis scatter_ok : scatter_contract scatter.
Hypothesis hash_ok : updateWeakHash32_contract updateWeakHash32.
Hypothesis hash_init_ok : is_UInt32 hash_init.

(** *** The hash buffer and the members of the stage *)

(** X7: [calculateWeakHash32] reads the row count and the key columns only:
    two batches with the same number of rows that agree on every key column
    get the same hash buffer, whatever their other columns hold, and so the
    same selector. *)
Theorem calculateWeakHash32_key_columns_only (chunk1 chunk2 : Chunk Field)
    (keys : list nat) (N : Z) (selector : Selector) :
  getNumRows chunk1 = getNumRows chunk2 →
  Forall (λ k, getColumns chunk1 !!! k = getColumns chunk2 !!! k) keys →
  calculateWeakHash32 updateWeakHash32 hash_init chunk1 keys
  = calculateWeakHash32 updateWeakHash32 hash_init chunk2 keys
  ∧ fillSelector (calculateWeakHash32 updateWeakHash32 hash_init chunk1 keys)
                 N selector
    = fillSelector (calculateWeakHash32 updateWeakHash32 hash_init chunk2 keys)
                   N selector.
Proof.
  intros Hrows Hkeys.
  assert (calculateWeakHash32 updateWeakHash32 hash_init chunk1 keys
          = calculateWeakHash32 updateWeakHash32 hash_init chunk2 keys) as Heq.
  { unfold calculateWeakHash32. rewrite Hrows.
    generalize (WeakHash32_reset hash_init (getNumRows chunk2)).
    induction Hkeys as [|k keys Hk _ IH]; intros hash0; [done|].
    cbn. rewrite Hk. apply IH. }
  by rewrite Heq.
Qed.

(** X8: what [transform] returns depends on the configuration of the stage
    and on the two chunks only: the [hash] and [selector] members that an
    earlier batch has left behind are rewritten before they are read. *)
Theorem transform_ignores_old_members (N : Z) (keys : list nat)
    (hash1 hash2 : WeakHash32) (selector1 selector2 : Selector)
    (input_chunk output_chunk : Chunk Field) :
  transform scatter updateWeakHash32 hash_init
    {| num_outputs := N; key_columns := keys; hash := hash1; selector := selector1 |}
    input_chunk output_chunk
  = transform scatter updateWeakHash32 hash_init
      {| num_outputs := N; key_columns := keys; hash := hash2; selector := selector2 |}
      input_chunk output_chunk.
Proof.
  unfold transform. cbn [num_outputs key_columns selector].
  by rewrite (fillSelector_map _ N selector1), (fillSelector_map _ N selector2).
Qed.

(** X9: on a batch that fits the header, [transform] throws exactly when the
    output chunk already carries an attachment of another type; the exception
    is [LOGICAL_ERROR]. *)
Theorem transform_throws_iff (header : Block) (this : SplittingByHashTransform)
    (input_chunk output_chunk : Chunk Field) :
  configured header this →
  Chunk_ok input_chunk →
  length (getColumns input_chunk) = columns header →
  transform scatter updateWeakHash32 hash_init this input_chunk output_chunk
  = Throw LOGICAL_ERROR
  ↔ getChunkInfo output_chunk = Some OtherChunkInfo.
Proof.
  intros Hconf Hok Hcols. split.
  - intros Hthrow.
    assert (getChunkInfo output_chunk = Some OtherChunkInfo
            ∨ getChunkInfo output_chunk ≠ Some OtherChunkInfo) as [|Hne];
      [by destruct (getChunkInfo output_chunk) as [[]|]; auto|done|].
    destruct (transform_spec scatter updateWeakHash32 hash_init scatter_ok hash_ok
                hash_init_ok header this input_chunk output_chunk
                Hconf Hok Hcols Hne) as (? & ? & ? & Hrun & _).
    congruence.
  - intros Hinfo. unfold transform. rewrite Hinfo. cbn. by rewrite Hinfo.
Qed.

(** *** The sub-batches *)

(** X10: on a batch with at least one column, [splitChunk] replaces whatever
    columns and row counts the result vector held from an earlier call: the
    columns and the row counts of the sub-batches are the same for any two
    earlier contents, and only the attachment of each slot is kept. *)
Theorem splitChunk_replaces_previous (chunk : Chunk Field) (selector : Selector)
    (N : Z) (previous1 previous2 : list (Chunk Field)) :
  Chunk_ok chunk →
  getColumns chunk ≠ [] →
  length selector = getNumRows chunk →
  Forall (λ s, 0 ≤ s < N)%Z selector →
  ∃ chunks1 chunks2,
    splitChunk scatter chunk selector N previous1 = Ok chunks1
    ∧ splitChunk scatter chunk selector N previous2 = Ok chunks2
    ∧ getColumns <$> chunks1 = getColumns <$> chunks2
    ∧ getNumRows <$> chunks1 = getNumRows <$> chunks2
    ∧ getChunkInfo <$> chunks1
      = getChunkInfo <$> resize (Z.to_nat N) Chunk_empty previous1.
Proof.
  intros Hok Hcols Hlen Hsel.
  destruct (splitChunk_spec scatter scatter_ok chunk selector N previous1
              Hok Hcols Hlen Hsel) as (chunks1 & Hrun1 & Hlen1 & Hl1).
  destruct (splitChunk_spec scatter scatter_ok chunk selector N previous2
              Hok Hcols Hlen Hsel) as (chunks2 & Hrun2 & Hlen2 & Hl2).
  exists chunks1, chunks2. split_and!; [done..| | |].
  - apply list_eq. intros i. rewrite !list_lookup_fmap.
    destruct (decide (i < Z.to_nat N)) as [Hi|Hi].
    + by rewrite Hl1, Hl2.
    + by rewrite !lookup_ge_None_2 by lia.
  - apply list_eq. intros i. rewrite !list_lookup_fmap.
    destruct (decide (i < Z.to_nat N)) as [Hi|Hi].
    + by rewrite Hl1, Hl2.
    + by rewrite !lookup_ge_None_2 by lia.
  - apply list_eq. intros i. rewrite !list_lookup_fmap.
    destruct (decide (i < Z.to_nat N)) as [Hi|Hi].
    + rewrite Hl1 by done. cbn.
      destruct (lookup_lt_is_Some_2 (resize (Z.to_nat N) Chunk_empty previous1) i)
        as [c Hc]; [by rewrite length_resize|].
      by rewrite Hc, (list_lookup_total_correct _ _ _ Hc).
    + by rewrite !lookup_ge_None_2 by (rewrite ?length_resize; lia).
Qed.

(** X11: [transform] attaches a sub-batch for every bucket, also for one
    that gets no row: sub-batch [i] has rows exactly when the selector sends
    some row of the input to bucket [i], and a bucket without rows gets a
    batch of zero rows that still has every column of the input, each of them
    empty. *)
Theorem transform_empty_bucket (header : Block) (this : SplittingByHashTransform)
    (input_chunk output_chunk : Chunk Field) :
  configured header this →
  Chunk_ok input_chunk →
  length (getColumns input_chunk) = columns header →
  getChunkInfo output_chunk ≠ Some OtherChunkInfo →
  ∃ this' output_chunk' chunks,
    transform scatter updateWeakHash32 hash_init this input_chunk output_chunk
    = Ok (this', output_chunk')
    ∧ getChunkInfo output_chunk' = Some (ChunkInfoWithChunks chunks)
    ∧ length chunks = Z.to_nat (num_outputs this)
    ∧ ∀ i, i < Z.to_nat (num_outputs this) →
        ∃ chunk : Chunk Field,
          chunks !! i = Some chunk
          ∧ length (getColumns chunk) = length (getColumns input_chunk)
          ∧ (hasRows chunk = true
             ↔ ∃ row, selector this' !! row = Some (Z.of_nat i))
          ∧ (hasRows chunk = false →
             getNumRows chunk = 0
             ∧ Forall (λ column, column = []) (getColumns chunk)).
Proof.
  intros Hconf Hok Hcols Hinfo.
  destruct (transform_spec scatter updateWeakHash32 hash_init scatter_ok hash_ok
              hash_init_ok header this input_chunk output_chunk
              Hconf Hok Hcols Hinfo)
    as (this' & output' & chunks & Hrun & _ & _ & _ & _ & _ & _
        & _ & _ & Hattached & Hcount & Hchunks).
  exists this', output', chunks. split_and!; [done..|].
  intros i Hi.
  destruct (Hchunks i Hi) as [info Hsub].
  eexists. split; [exact Hsub|].
  unfold sub_batch, hasRows. cbn. rewrite length_fmap. split; [done|].
  split.
  - rewrite bool_decide_eq_true. split.
    + intros Hpos.
      destruct (bucket_rows (selector this') i) as [|row rows] eqn:Hrows;
        [cbn in Hpos; lia|].
      exists row. apply elem_of_bucket_rows. rewrite Hrows. by left.
    + intros [row Hrow%elem_of_bucket_rows].
      destruct (bucket_rows (selector this') i); [by apply elem_of_nil in Hrow|].
      cbn. lia.
  - rewrite bool_decide_eq_false. intros Hnone.
    destruct (bucket_rows (selector this') i) as [|row rows]; [|cbn in Hnone; lia].
    split; [done|]. apply Forall_fmap, Forall_forall. by intros column _.
Qed.

(** X12: a stage that the constructor of the splitting transform returns
    has passed the checks that [transform] relies on, so it does not throw on
    a batch that fits the header: it attaches one sub-batch per output, and
    the stage it leaves has the same number of outputs and the same key
    columns, ready for the next batch. *)
Theorem constructed_stage_transforms (header : Block) (N : Z) (keys : list nat)
    (this : SplittingByHashTransform) (input_chunk output_chunk : Chunk Field) :
  SplittingByHashTransform_new header N keys = Ok this →
  Chunk_ok input_chunk →
  length (getColumns input_chunk) = columns header →
  getChunkInfo output_chunk ≠ Some OtherChunkInfo →
  configured header this
  ∧ ∃ this' output_chunk' chunks,
      transform scatter updateWeakHash32 hash_init this input_chunk output_chunk
      = Ok (this', output_chunk')
      ∧ getChunkInfo output_chunk' = Some (ChunkInfoWithChunks chunks)
      ∧ length chunks = Z.to_nat N
      ∧ num_outputs this' = N
      ∧ key_columns this' = keys
      ∧ configured header this'.
Proof.
  intros Hnew Hok Hcols Hinfo.
  assert (configured header this
          ∧ this = {| num_outputs := N; key_columns := keys;
                      hash := []; selector := [] |}) as [Hconf Hthis].
  { revert Hnew. unfold SplittingByHashTransform_new. cbn.
    case_decide; [done|]. case_decide; [done|].
    destruct (check_key_columns header keys) as [[]|] eqn:Hcheck; cbn; [|done].
    intros [= <-]. split; [|done]. split_and!; cbn; [lia|done|].
    clear -Hcheck. induction keys as [|column rest IH]; [constructor|].
    cbn in Hcheck. case_decide; [done|]. constructor; [lia|by apply IH]. }
  split; [done|].
  destruct (transform_spec scatter updateWeakHash32 hash_init scatter_ok hash_ok
              hash_init_ok header this input_chunk output_chunk
              Hconf Hok Hcols Hinfo)
    as (this' & output' & chunks & Hrun & HN & Hkeys & _ & _ & _ & _
        & _ & _ & Hattached & Hcount & _).
  exists this', output', chunks. subst this. cbn in *.
  split_and!; [done..|].
  destruct Hconf as (H1 & H2 & H3). unfold configured.
  by rewrite HN, Hkeys.
Qed.

End PartitionFurther.

(** ** Further properties of the resizing transform *)

Section FanOutFurther.
Context {Field : Type}.
Variable pushRef_leaves : Chunk Field → Chunk Field.

Implicit Types (this : ResizeByHashTransform Field) (output : OutputPort Field)
  (outputs : list (OutputPort Field)) (l : GenerateLoop Field).

(** *** prepareConsume, case by case *)

Lemma prepareConsume_outputs_None outputs b :
  prepareConsume_outputs outputs b = None
  ↔ Exists (λ output, out_isFinished output = false ∧ canPush output = false)
           outputs.
Proof.
  revert b. induction outputs as [|output outputs IH]; intros b; cbn.
  - split; [done|]. by intros ?%Exists_nil.
  - rewrite Exists_cons. destruct (out_isFinished output) eqn:Hfin.
    + rewrite IH. split; [by right|]. by intros [[? _]|?].
    + destruct (canPush output) eqn:Hpush; cbn.
      * rewrite IH. split; [by right|]. by intros [[_ ?]|?].
      * split; [by left|done].
Qed.

Lemma prepareConsume_outputs_Some_false outputs :
  prepareConsume_outputs outputs true = Some false
  ↔ ¬ Exists (λ output, out_isFinished output = false ∧ canPush output = false)
             outputs
    ∧ ¬ Forall (λ output, out_isFinished output = true) outputs.
Proof.
  rewrite <- prepareConsume_outputs_None with (b := true). split.
  - intros Hloop. split; [congruence|].
    intros Hall. by rewrite prepareConsume_outputs_finished in Hloop.
  - intros [Hnone Hnot].
    destruct (prepareConsume_outputs outputs true) as [[]|] eqn:Hloop; [|done..].
    by apply prepareConsume_outputs_true in Hloop as [_ ?].
Qed.

(** X13: [prepareConsume] returns [PortFull] exactly when some output that is
    not finished cannot take a push, whatever the state of the input port
    (exhausted or holding data); it then changes nothing. *)
Theorem prepareConsume_PortFull_iff this :
  ((prepareConsume this).1 = PortFull
   ↔ Exists (λ output, out_isFinished output = false ∧ canPush output = false)
            (outputs this))
  ∧ ((prepareConsume this).1 = PortFull → (prepareConsume this).2 = this).
Proof.
  rewrite <- prepareConsume_outputs_None with (b := true).
  unfold prepareConsume.
  destruct (prepareConsume_outputs (outputs this) true) as [[]|]; cbn;
    [by split| |by split].
  destruct (in_isFinished (input this)); cbn; [by split|].
  destruct (hasData _); cbn; by split.
Qed.

(** X14: [prepareConsume] returns [Ready] exactly when no unfinished output
    is blocked, not every output is finished, the input port is not finished
    and it holds a chunk; it then moves that chunk into [input_chunk], leaves
    the port empty and marked as needed, enters the Generating phase, and
    touches neither the outputs nor the working set nor the table. *)
Theorem prepareConsume_Ready_iff this :
  ((prepareConsume this).1 = Ready
   ↔ ¬ Exists (λ output, out_isFinished output = false ∧ canPush output = false)
              (outputs this)
     ∧ ¬ Forall (λ output, out_isFinished output = true) (outputs this)
     ∧ in_isFinished (input this) = false
     ∧ is_Some (in_data (input this)))
  ∧ ((prepareConsume this).1 = Ready →
     in_data (input this) = Some (input_chunk (prepareConsume this).2)
     ∧ in_data (input (prepareConsume this).2) = None
     ∧ in_needed (input (prepareConsume this).2) = true
     ∧ is_generating_phase (prepareConsume this).2 = true
     ∧ outputs (prepareConsume this).2 = outputs this
     ∧ output_chunks (prepareConsume this).2 = output_chunks this
     ∧ was_output_processed (prepareConsume this).2 = was_output_processed this).
Proof.
  pose proof (prepareConsume_outputs_Some_false (outputs this)) as Hloop.
  unfold prepareConsume.
  destruct (prepareConsume_outputs (outputs this) true) as [[]|]; cbn;
    [split; [split; [done|intros (HA & HB & _); by pose proof (proj2 Hloop (conj HA HB))]|done]
    | |split; [split; [done|intros (HA & HB & _); by pose proof (proj2 Hloop (conj HA HB))]|done]].
  destruct (proj1 Hloop eq_refl) as [HA HB].
  destruct (in_isFinished (input this)); cbn;
    [split; [split; [done|by intros (_ & _ & ? & _)]|done]|].
  unfold hasData, setNeeded. cbn.
  destruct (in_data (input this)) as [chunk|] eqn:Hdata; cbn.
  - split; [|done]. split; [|done]. intros _. split_and!; [done..|by eexists].
  - split; [|done]. split; [done|]. by intros (_ & _ & _ & ?%is_Some_None).
Qed.

(** X15: [prepareConsume] returns [NeedData] exactly when no unfinished
    output is blocked, not every output is finished, and the input port is
    neither finished nor holding a chunk; all it does then is mark the input
    port as needed. *)
Theorem prepareConsume_NeedData_iff this :
  ((prepareConsume this).1 = NeedData
   ↔ ¬ Exists (λ output, out_isFinished output = false ∧ canPush output = false)
              (outputs this)
     ∧ ¬ Forall (λ output, out_isFinished output = true) (outputs this)
     ∧ in_isFinished (input this) = false
     ∧ in_data (input this) = None)
  ∧ ((prepareConsume this).1 = NeedData →
     input (prepareConsume this).2 = setNeeded (input this)
     ∧ is_generating_phase (prepareConsume this).2 = is_generating_phase this
     ∧ input_chunk (prepareConsume this).2 = input_chunk this
     ∧ outputs (prepareConsume this).2 = outputs this
     ∧ output_chunks (prepareConsume this).2 = output_chunks this
     ∧ was_output_processed (prepareConsume this).2 = was_output_processed this).
Proof.
  pose proof (prepareConsume_outputs_Some_false (outputs this)) as Hloop.
  unfold prepareConsume.
  destruct (prepareConsume_outputs (outputs this) true) as [[]|]; cbn;
    [split; [split; [done|intros (HA & HB & _); by pose proof (proj2 Hloop (conj HA HB))]|done]
    | |split; [split; [done|intros (HA & HB & _); by pose proof (proj2 Hloop (conj HA HB))]|done]].
  destruct (proj1 Hloop eq_refl) as [HA HB].
  destruct (in_isFinished (input this)); cbn;
    [split; [split; [done|by intros (_ & _ & ? & _)]|done]|].
  unfold hasData, setNeeded. cbn.
  destruct (in_data (input this)) as [chunk|] eqn:Hdata; cbn.
  - split; [|done]. split; [done|]. by intros (_ & _ & _ & ?).
  - split; [|done]. split; [|done]. intros _. by split_and!.
Qed.

(** *** What a call of [prepare] does to the ports and the members *)

Lemma prepareConsume_output_at this pos output :
  outputs this !! pos = Some output →
  outputs (prepareConsume this).2 !! pos = Some output
  ∨ outputs (prepareConsume this).2 !! pos = Some (finish output).
Proof.
  intros Hlook. unfold prepareConsume.
  destruct (prepareConsume_outputs (outputs this) true) as [[]|]; cbn;
    [by left| |by left].
  destruct (in_isFinished (input this)); cbn.
  - right. by rewrite list_lookup_fmap, Hlook.
  - destruct (hasData _); cbn; by left.
Qed.

(** The port at [pos] after a call of [prepare] in the Generating phase. *)
Lemma prepareGenerate_output_at past_end this pos output :
  outputs this !! pos = Some output →
  let pending :=
    negb (skipped past_end (was_output_processed this) (output_chunks this)
                  pos output) in
  ∃ output',
    outputs (prepareGenerate pushRef_leaves past_end this).2 !! pos = Some output'
    ∧ (output' = output ∨ output' = finish output
       ∨ (pending = true ∧ canPush output = true
          ∧ output' = pushRef output (output_chunks this !!! pos))).
Proof.
  intros Hlook pending. rewrite prepareGenerate_unfold. cbn zeta.
  destruct (has_full_ports _) eqn:Hfull.
  - cbn. rewrite (loop_outputs pushRef_leaves past_end (outputs this)
                    (GenerateLoop_start this) pos output Hlook).
    cbn. eexists. split; [done|]. unfold pending.
    destruct (skipped _ _ _ _ _); [by left|].
    destruct (canPush output); [|by left]. by right; right.
  - destruct (loop_quiet pushRef_leaves past_end _ _ Hfull) as (Hq & _).
    destruct (prepareConsume_output_at
                (prepareGenerate_after this
                   (prepareGenerate_loop pushRef_leaves past_end (outputs this)
                      (GenerateLoop_start this)).1
                   (prepareGenerate_loop pushRef_leaves past_end (outputs this)
                      (GenerateLoop_start this)).2) pos output) as [H|H].
    + cbn. by rewrite Hq.
    + eexists. split; [exact H|by left].
    + eexists. split; [exact H|by right; left].
Qed.

(** X16: a call of [prepare], in either phase, gives an output at most one
    chunk, and only the sub-batch at the output's own position in
    [output_chunks]; it does so only in the Generating phase, to a port that is
    not finished and can take a push, and only when the sub-batch has
    rows. *)
Theorem prepare_pushes_own_sub_batch (past_end : bool) this pos output :
  outputs this !! pos = Some output →
  ∃ output',
    outputs (prepare pushRef_leaves past_end this).2 !! pos = Some output'
    ∧ (out_pushed output' = out_pushed output
       ∨ (out_pushed output' = out_pushed output ++ [output_chunks this !!! pos]
          ∧ is_generating_phase this = true
          ∧ hasRows (output_chunks this !!! pos) = true
          ∧ out_isFinished output = false
          ∧ canPush output = true)).
Proof.
  intros Hlook. unfold prepare.
  destruct (is_generating_phase this) eqn:Hphase.
  - destruct (prepareGenerate_output_at past_end this pos output Hlook)
      as (output' & Hlook' & [->|[->|(Hpending & Hpush & ->)]]);
      exists output' || eexists; (split; [exact Hlook'|]); [by left..|].
    right. apply negb_true_iff in Hpending. unfold skipped in Hpending.
    apply orb_false_iff in Hpending as [[_ Hrows]%orb_false_iff Hfin].
    apply negb_false_iff in Hrows. done.
  - destruct (prepareConsume_output_at this pos output Hlook) as [H|H];
      eexists; (split; [exact H|]); by left.
Qed.

(** X17: a call of [prepare] never reopens a finished output port and never
    pushes into one. *)
Theorem prepare_keeps_finished (past_end : bool) this pos output :
  outputs this !! pos = Some output →
  out_isFinished output = true →
  ∃ output',
    outputs (prepare pushRef_leaves past_end this).2 !! pos = Some output'
    ∧ out_isFinished output' = true
    ∧ out_pushed output' = out_pushed output.
Proof.
  intros Hlook Hfin. unfold prepare.
  destruct (is_generating_phase this) eqn:Hphase.
  - destruct (prepareGenerate_output_at past_end this pos output Hlook)
      as (output' & Hlook' & [->|[->|(Hpending & _ & ->)]]).
    + by exists output.
    + by exists (finish output).
    + unfold skipped in Hpending. rewrite Hfin, orb_true_r in Hpending. done.
  - destruct (prepareConsume_output_at this pos output Hlook) as [H|H].
    + by exists output.
    + by exists (finish output).
Qed.

(** X18: a call of [prepare] takes the chunk that waits in the input port
    only when it returns [Ready], and then keeps it in [input_chunk]; with any
    other status the chunk in the port and [input_chunk] are left as they
    were. *)
Theorem prepare_takes_input_when_Ready (past_end : bool) this :
  let r := prepare pushRef_leaves past_end this in
  (r.1 = Ready →
   in_data (input this) = Some (input_chunk r.2)
   ∧ in_data (input r.2) = None
   ∧ is_generating_phase r.2 = true)
  ∧ (r.1 ≠ Ready →
     in_data (input r.2) = in_data (input this)
     ∧ input_chunk r.2 = input_chunk this).
Proof.
  assert (∀ that : ResizeByHashTransform Field,
    ((prepareConsume that).1 = Ready →
     in_data (input that) = Some (input_chunk (prepareConsume that).2)
     ∧ in_data (input (prepareConsume that).2) = None
     ∧ is_generating_phase (prepareConsume that).2 = true)
    ∧ ((prepareConsume that).1 ≠ Ready →
       in_data (input (prepareConsume that).2) = in_data (input that)
       ∧ input_chunk (prepareConsume that).2 = input_chunk that)) as Hconsume.
  { intros that. unfold prepareConsume.
    destruct (prepareConsume_outputs (outputs that) true) as [[]|]; cbn;
      [by split| |by split].
    destruct (in_isFinished (input that)); cbn; [by split|].
    unfold hasData, setNeeded. cbn.
    destruct (in_data (input that)); cbn; by split. }
  cbn zeta. unfold prepare. destruct (is_generating_phase this); [|apply Hconsume].
  rewrite prepareGenerate_unfold. cbn zeta.
  destruct (has_full_ports _); [by split|].
  exact (Hconsume (prepareGenerate_after this _ _)).
Qed.

(** X19: a call of [prepare] keeps the number of output ports, the number of
    sub-batches of the working set and the number of entries of the table. *)
Theorem prepare_keeps_sizes (past_end : bool) this :
  let this' := (prepare pushRef_leaves past_end this).2 in
  length (outputs this') = length (outputs this)
  ∧ length (output_chunks this') = length (output_chunks this)
  ∧ length (was_output_processed this') = length (was_output_processed this).
Proof.
  cbn zeta. unfold prepare.
  destruct (is_generating_phase this).
  - rewrite prepareGenerate_unfold. cbn zeta.
    destruct (loop_lengths pushRef_leaves past_end (outputs this) (GenerateLoop_start this))
      as (H1 & H2 & H3). cbn in H2, H3.
    destruct (has_full_ports _); cbn; [done|].
    destruct (prepareConsume_members
                (prepareGenerate_after this
                   (prepareGenerate_loop pushRef_leaves past_end (outputs this)
                      (GenerateLoop_start this)).1
                   (prepareGenerate_loop pushRef_leaves past_end (outputs this)
                      (GenerateLoop_start this)).2)) as (-> & -> & ->).
    done.
  - by destruct (prepareConsume_members this) as (-> & -> & ->).
Qed.

(** X20: a call of [prepare] never clears an entry of the table: an entry
    that is set stays set until [work] unpacks the next envelope. *)
Theorem prepare_keeps_entries_set (past_end : bool) this (index : nat) :
  was_output_processed this !! index = Some true →
  was_output_processed (prepare pushRef_leaves past_end this).2 !! index
  = Some true.
Proof.
  intros Hset. unfold prepare.
  destruct (is_generating_phase this).
  - rewrite prepareGenerate_unfold. cbn zeta.
    pose proof (loop_table_mono pushRef_leaves past_end (outputs this)
                  (GenerateLoop_start this) index Hset) as Hmono.
    destruct (has_full_ports _); cbn; [done|].
    by destruct (prepareConsume_members
                   (prepareGenerate_after this
                      (prepareGenerate_loop pushRef_leaves past_end (outputs this)
                         (GenerateLoop_start this)).1
                      (prepareGenerate_loop pushRef_leaves past_end (outputs this)
                         (GenerateLoop_start this)).2)) as (_ & -> & _).
  - by destruct (prepareConsume_members this) as (_ & -> & _).
Qed.

(** X21: while a pending sub-batch is blocked (it has rows, its entry reads
    as not processed, its output is neither finished nor able to take a push),
    a call of [prepare] in the Generating phase returns [PortFull], stays in
    the Generating phase and leaves the input port and [input_chunk] alone: the
    next envelope is not pulled before the current one is drained. *)
Theorem prepare_blocked_stays_generating (past_end : bool) this pos output :
  is_generating_phase this = true →
  outputs this !! pos = Some output →
  skipped past_end (was_output_processed this) (output_chunks this) pos output
  = false →
  canPush output = false →
  let r := prepare pushRef_leaves past_end this in
  r.1 = PortFull
  ∧ is_generating_phase r.2 = true
  ∧ input r.2 = input this
  ∧ input_chunk r.2 = input_chunk this
  ∧ output_chunks r.2 !! pos = output_chunks this !! pos.
Proof.
  intros Hphase Hlook Hskip Hpush. cbn zeta. unfold prepare. rewrite Hphase.
  rewrite prepareGenerate_unfold. cbn zeta.
  destruct (loop_flags pushRef_leaves past_end (outputs this)
              (GenerateLoop_start this)) as [Hfull Hall].
  cbn in Hfull, Hall.
  rewrite (proj2 Hfull) by (right; by exists pos, output). cbn.
  destruct (all_outputs_processed _) eqn:Hprocessed.
  - destruct (proj1 Hall eq_refl) as [_ Hready].
    specialize (Hready pos output Hlook Hskip). congruence.
  - split_and!; [done..|].
    apply (loop_chunk_kept pushRef_leaves past_end (outputs this) (GenerateLoop_start this) pos).
    intros pos' output' Hlook' Hpos'. cbn in Hpos'. subst pos'.
    rewrite Hlook in Hlook'. injection Hlook' as <-. by right.
Qed.

End FanOutFurther.

Section FanOutDelivery.
Context {Field : Type}.
Variable pushRef_leaves : Chunk Field → Chunk Field.

Implicit Types (this : ResizeByHashTransform Field) (output : OutputPort Field)
  (m : InMemory Field).


End FanOutDelivery.

Section Composition.
Context {Field : Type}.
Variable scatter : list Field → Z → list Z → list (list Field).
Variable updateWeakHash32 : list Field → list Z → list Z.
Variable hash_init : Z.
Variable pushRef_leaves : Chunk Field → Chunk Field.
Hypothesis scatter_ok : scatter_contract scatter.
Hypothesis hash_ok : updateWeakHash32_contract updateWeakHash32.
Hypothesis hash_init_ok : is_UInt32 hash_init.

Implicit Types (this : ResizeByHashTransform Field).

(** *** From one envelope to the working set *)

Lemma prepare_then_work (past_end : bool) this
    (envelope : Chunk Field) (chunks : list (Chunk Field)) :
  is_generating_phase this = false →
  Forall (λ output, out_isFinished output = true ∨ canPush output = true)
         (outputs this) →
  ¬ Forall (λ output, out_isFinished output = true) (outputs this) →
  in_isFinished (input this) = false →
  in_data (input this) = Some envelope →
  prepare pushRef_leaves past_end this
  = (Ready,
     {| input := {| in_finished := in_finished (input this);
                    in_closed := in_closed (input this);
                    in_needed := true; in_data := None |};
        outputs := outputs this;
        is_generating_phase := true;
        input_chunk := envelope;
        output_chunks := output_chunks this;
        was_output_processed := was_output_processed this |}).
Proof.
  intros Hphase Hready Hnot Hin Hdata.
  unfold prepare. rewrite Hphase. unfold prepareConsume.
  rewrite prepareConsume_outputs_ready, Hin by done.
  unfold hasData, setNeeded, pull. cbn. rewrite Hdata. done.
Qed.

(** X23: on a stage in the Consuming phase whose unfinished outputs can all
    take a push, with an output that is not finished and an input port that
    is not finished and holds an envelope with one sub-batch per output,
    [prepare] returns [Ready] and the [work] that follows succeeds: the
    working set is the sub-batches of the envelope, the table has one false
    entry per output, the stage is in the Generating phase, and the ports have
    received nothing yet. *)
Theorem prepare_then_work_unpacks (past_end : bool) this
    (envelope : Chunk Field) (chunks : list (Chunk Field)) :
  is_generating_phase this = false →
  Forall (λ output, out_isFinished output = true ∨ canPush output = true)
         (outputs this) →
  ¬ Forall (λ output, out_isFinished output = true) (outputs this) →
  in_isFinished (input this) = false →
  in_data (input this) = Some envelope →
  getChunkInfo envelope = Some (ChunkInfoWithChunks chunks) →
  length chunks = length (outputs this) →
  let r := prepare pushRef_leaves past_end this in
  r.1 = Ready
  ∧ (work r.2).2 = Ok ()
  ∧ is_generating_phase (work r.2).1 = true
  ∧ output_chunks (work r.2).1 = chunks
  ∧ was_output_processed (work r.2).1 = replicate (length (outputs this)) false
  ∧ outputs (work r.2).1 = outputs this
  ∧ in_data (input (work r.2).1) = None.
Proof.
  intros Hphase Hready Hnot Hin Hdata Hinfo Hlen. cbn zeta.
  rewrite (prepare_then_work past_end this envelope) by done.
  unfold work. cbn. rewrite Hinfo. cbn.
  rewrite decide_False by (by intros ?). cbn. by rewrite Hlen.
Qed.

Lemma sub_batches_row_count (columns : list (list Field)) (selector : list Z)
    (N : Z) (chunks : list (Chunk Field)) :
  Forall (λ s, 0 ≤ s < N)%Z selector →
  length chunks = Z.to_nat N →
  (∀ i, i < Z.to_nat N →
     ∃ info, chunks !! i = Some (sub_batch columns selector info i)) →
  sum_list (getNumRows <$> chunks) = length selector.
Proof.
  intros Hrange Hlen Hchunks.
  assert (getNumRows <$> chunks
          = length <$> (bucket_rows selector <$> seq 0 (Z.to_nat N))) as ->.
  { apply list_eq. intros i. rewrite !list_lookup_fmap.
    destruct (decide (i < Z.to_nat N)) as [Hi|Hi].
    - destruct (Hchunks i Hi) as [info ->]. by rewrite lookup_seq_lt.
    - rewrite (lookup_ge_None_2 chunks), lookup_seq_ge by lia. done. }
  rewrite <- length_concat, (bucket_rows_partition _ _ Hrange). apply length_seq.
Qed.

(** X24: the envelope that the splitting transform makes for [N] outputs is
    one that a resizing transform with [N] output ports accepts: when the
    envelope waits in its input port and the outputs are ready, [prepare]
    returns [Ready], [work] does not throw, and the working set holds [N]
    sub-batches whose row counts sum to the row count of the batch that was
    split. *)
Theorem splitter_feeds_resizer (past_end : bool) (header : Block)
    (splitter : SplittingByHashTransform)
    (input_chunk output_chunk : Chunk Field) this :
  configured header splitter →
  Chunk_ok input_chunk →
  length (getColumns input_chunk) = columns header →
  getChunkInfo output_chunk ≠ Some OtherChunkInfo →
  length (outputs this) = Z.to_nat (num_outputs splitter) →
  is_generating_phase this = false →
  Forall (λ output, out_isFinished output = true ∨ canPush output = true)
         (outputs this) →
  ¬ Forall (λ output, out_isFinished output = true) (outputs this) →
  in_isFinished (input this) = false →
  ∃ splitter' envelope,
    transform scatter updateWeakHash32 hash_init splitter input_chunk output_chunk
    = Ok (splitter', envelope)
    ∧ let r := prepare pushRef_leaves past_end (producer_pushes envelope this) in
      r.1 = Ready
      ∧ (work r.2).2 = Ok ()
      ∧ length (output_chunks (work r.2).1) = length (outputs this)
      ∧ sum_list (getNumRows <$> output_chunks (work r.2).1)
        = getNumRows input_chunk.
Proof.
  intros Hconf Hok Hcols Hinfo Hports Hphase Hready Hnot Hin.
  destruct (transform_spec scatter updateWeakHash32 hash_init scatter_ok hash_ok
              hash_init_ok header splitter input_chunk output_chunk
              Hconf Hok Hcols Hinfo)
    as (splitter' & envelope & chunks & Hrun & _ & _ & _ & _ & Hlen & Hrange
        & _ & _ & Hattached & Hcount & Hchunks).
  exists splitter', envelope. split; [done|].
  cbn zeta.
  rewrite (prepare_then_work past_end (producer_pushes envelope this) envelope)
    by done.
  unfold work. cbn. rewrite Hattached. cbn.
  rewrite decide_False by (intros Hne; apply Hne; by rewrite Hcount). cbn.
  split_and!; [done|done|by rewrite Hcount|].
  rewrite <- Hlen.
  by apply (sub_batches_row_count (getColumns input_chunk) _ (num_outputs splitter)).
Qed.

End Composition.

(** ** The scenarios, continued *)

Lemma calculateWeakHash32_key_columns_only_witness :
  let chunk2 := mkChunk [[10; 20; 10; 30]; [9; 9; 9; 9]]%Z 4 None in
  calculateWeakHash32 updateWeakHash32_ref UInt32_max example_input [0]
  = calculateWeakHash32 updateWeakHash32_ref UInt32_max chunk2 [0]
  ∧ fillSelector
      (calculateWeakHash32 updateWeakHash32_ref UInt32_max example_input [0]) 2 []
    = fillSelector
        (calculateWeakHash32 updateWeakHash32_ref UInt32_max chunk2 [0]) 2 [].
Proof.
  apply (calculateWeakHash32_key_columns_only updateWeakHash32_ref UInt32_max
           example_input (mkChunk [[10; 20; 10; 30]; [9; 9; 9; 9]]%Z 4 None)
           [0] 2 []).
  - reflexivity.
  - repeat constructor.
Defined.

Lemma transform_throws_iff_witness :
  transform scatter_ref updateWeakHash32_ref UInt32_max example_splitter
            example_input (mkChunk [] 0 (Some OtherChunkInfo))
  = Throw LOGICAL_ERROR
  ↔ getChunkInfo (mkChunk (Field := Z) [] 0 (Some OtherChunkInfo))
    = Some OtherChunkInfo.
Proof.
  apply (transform_throws_iff scatter_ref updateWeakHash32_ref UInt32_max
           scatter_ref_contract updateWeakHash32_ref_contract
           ltac:(unfold is_UInt32, UInt32_max; lia)
           example_header example_splitter example_input
           (mkChunk [] 0 (Some OtherChunkInfo))).
  - exact example_splitter_configured.
  - exact example_input_ok.
  - reflexivity.
Defined.

Lemma splitChunk_replaces_previous_witness :
  ∃ chunks1 chunks2,
    splitChunk scatter_ref example_input [0; 0; 0; 1]%Z 2 [] = Ok chunks1
    ∧ splitChunk scatter_ref example_input [0; 0; 0; 1]%Z 2
        [mkChunk [[7]; [7]; [7]]%Z 1 None] = Ok chunks2
    ∧ getColumns <$> chunks1 = getColumns <$> chunks2
    ∧ getNumRows <$> chunks1 = getNumRows <$> chunks2
    ∧ getChunkInfo <$> chunks1
      = getChunkInfo <$> resize (Z.to_nat 2) Chunk_empty [].
Proof.
  apply (splitChunk_replaces_previous scatter_ref scatter_ref_contract
           example_input [0; 0; 0; 1]%Z 2 [] [mkChunk [[7]; [7]; [7]]%Z 1 None]).
  - exact example_input_ok.
  - discriminate.
  - reflexivity.
  - repeat constructor; lia.
Defined.

Lemma transform_empty_bucket_witness :
  let input_chunk := mkChunk [[10; 10]; [1; 2]]%Z 2 None in
  ∃ this' output_chunk' chunks,
    transform scatter_ref updateWeakHash32_ref UInt32_max example_splitter
              input_chunk Chunk_empty
    = Ok (this', output_chunk')
    ∧ getChunkInfo output_chunk' = Some (ChunkInfoWithChunks chunks)
    ∧ length chunks = 2
    ∧ ∀ i, i < 2 →
        ∃ chunk : Chunk Z,
          chunks !! i = Some chunk
          ∧ length (getColumns chunk) = 2
          ∧ (hasRows chunk = true
             ↔ ∃ row, selector this' !! row = Some (Z.of_nat i))
          ∧ (hasRows chunk = false →
             getNumRows chunk = 0
             ∧ Forall (λ column, column = []) (getColumns chunk)).
Proof.
  apply (transform_empty_bucket scatter_ref updateWeakHash32_ref UInt32_max
           scatter_ref_contract updateWeakHash32_ref_contract
           ltac:(unfold is_UInt32, UInt32_max; lia)
           example_header example_splitter
           (mkChunk [[10; 10]; [1; 2]]%Z 2 None) Chunk_empty).
  - exact example_splitter_configured.
  - unfold Chunk_ok. repeat constructor.
  - reflexivity.
  - discriminate.
Defined.

Lemma constructed_stage_transforms_witness :
  configured example_header example_splitter
  ∧ ∃ this' output_chunk' chunks,
      transform scatter_ref updateWeakHash32_ref UInt32_max example_splitter
                example_input Chunk_empty
      = Ok (this', output_chunk')
      ∧ getChunkInfo output_chunk' = Some (ChunkInfoWithChunks chunks)
      ∧ length chunks = 2
      ∧ num_outputs this' = 2%Z
      ∧ key_columns this' = [0]
      ∧ configured example_header this'.
Proof.
  apply (constructed_stage_transforms scatter_ref updateWeakHash32_ref UInt32_max
           scatter_ref_contract updateWeakHash32_ref_contract
           ltac:(unfold is_UInt32, UInt32_max; lia)
           example_header 2 [0] example_splitter example_input Chunk_empty).
  - reflexivity.
  - exact example_input_ok.
  - reflexivity.
  - discriminate.
Defined.

Lemma prepare_pushes_own_sub_batch_witness :
  let this := example_generating example_sub_batches in
  let output :=
    {| out_finished := false; out_can_push := true; out_pushed := [] |} in
  ∃ output',
    outputs (prepare chunk_stays false this).2 !! 0 = Some output'
    ∧ (out_pushed output' = out_pushed output
       ∨ (out_pushed output' = out_pushed output ++ [output_chunks this !!! 0]
          ∧ is_generating_phase this = true
          ∧ hasRows (output_chunks this !!! 0) = true
          ∧ out_isFinished output = false
          ∧ canPush output = true)).
Proof.
  apply (prepare_pushes_own_sub_batch chunk_stays false
           (example_generating example_sub_batches) 0
           {| out_finished := false; out_can_push := true; out_pushed := [] |}).
  reflexivity.
Defined.

Lemma prepare_keeps_finished_witness :
  let this := outputs_finished (example_generating example_sub_batches) in
  ∃ output',
    outputs (prepare chunk_stays false this).2 !! 0 = Some output'
    ∧ out_isFinished output' = true
    ∧ out_pushed output' = [].
Proof.
  apply (prepare_keeps_finished chunk_stays false
           (outputs_finished (example_generating example_sub_batches)) 0
           {| out_finished := true; out_can_push := false; out_pushed := [] |}).
  - reflexivity.
  - reflexivity.
Defined.

Lemma prepare_keeps_entries_set_witness :
  let this := (prepare chunk_stays false
                 (example_generating example_sub_batches)).2 in
  was_output_processed this = [false; true]
  ∧ was_output_processed (prepare chunk_stays true this).2 !! 1 = Some true.
Proof.
  split; [reflexivity|].
  apply (prepare_keeps_entries_set chunk_stays true
           (prepare chunk_stays false
              (example_generating example_sub_batches)).2 1).
  reflexivity.
Defined.

Lemma prepare_blocked_stays_generating_witness :
  let this := consumers_set [false; true]
                (example_generating example_sub_batches) in
  (prepare chunk_stays false this).1 = PortFull
  ∧ is_generating_phase (prepare chunk_stays false this).2 = true
  ∧ input (prepare chunk_stays false this).2 = input this
  ∧ input_chunk (prepare chunk_stays false this).2 = input_chunk this
  ∧ output_chunks (prepare chunk_stays false this).2 !! 0
    = output_chunks this !! 0.
Proof.
  apply (prepare_blocked_stays_generating chunk_stays false
           (consumers_set [false; true]
              (example_generating example_sub_batches)) 0
           {| out_finished := false; out_can_push := false; out_pushed := [] |}).
  - reflexivity.
  - reflexivity.
  - reflexivity.
  - reflexivity.
Defined.

Lemma prepare_then_work_unpacks_witness :
  let this := example_stage (example_envelope example_sub_batches) in
  let r := prepare chunk_stays false this in
  r.1 = Ready
  ∧ (work r.2).2 = Ok ()
  ∧ is_generating_phase (work r.2).1 = true
  ∧ output_chunks (work r.2).1 = example_sub_batches
  ∧ was_output_processed (work r.2).1 = replicate (length (outputs this)) false
  ∧ outputs (work r.2).1 = outputs this
  ∧ in_data (input (work r.2).1) = None.
Proof.
  apply (prepare_then_work_unpacks chunk_stays false
           (example_stage (example_envelope example_sub_batches))
           (example_envelope example_sub_batches) example_sub_batches).
  - reflexivity.
  - repeat constructor; by right.
  - intros Hall. apply Forall_cons in Hall as [Hfin _]. discriminate Hfin.
  - reflexivity.
  - reflexivity.
  - reflexivity.
  - reflexivity.
Defined.

Lemma splitter_feeds_resizer_witness :
  let this := consumers_set [true; true] example_fresh in
  ∃ splitter' envelope,
    transform scatter_ref updateWeakHash32_ref UInt32_max example_splitter
              example_input Chunk_empty
    = Ok (splitter', envelope)
    ∧ let r := prepare chunk_stays false (producer_pushes envelope this) in
      r.1 = Ready
      ∧ (work r.2).2 = Ok ()
      ∧ length (output_chunks (work r.2).1) = length (outputs this)
      ∧ sum_list (getNumRows <$> output_chunks (work r.2).1)
        = getNumRows example_input.
Proof.
  apply (splitter_feeds_resizer scatter_ref updateWeakHash32_ref UInt32_max
           chunk_stays scatter_ref_contract updateWeakHash32_ref_contract
           ltac:(unfold is_UInt32, UInt32_max; lia)
           false example_header example_splitter example_input Chunk_empty
           (consumers_set [true; true] example_fresh)).
  - exact example_splitter_configured.
  - exact example_input_ok.
  - reflexivity.
  - discriminate.
  - reflexivity.
  - reflexivity.
  - repeat constructor; by right.
  - intros Hall. apply Forall_cons in Hall as [Hfin _]. discriminate Hfin.
  - reflexivity.
Defined.

